(** * Spec1D eigenroots: root solvers on companion and Jacobi pencils

    A shallow embedding of [forwardmodel/spec1d/eigenroots.hpp]: the generic
    polynomial root solver [eigensolveroots] and the two node solvers
    [eigensolveroots_lobatto] and [eigensolveroots_laguerre].

    The three functions are C++ templates over a numeric type [real]; they
    also compute in [double] and [long double].  The arithmetic of each of
    these types is kept abstract (a [Numeric] instance, no algebraic law is
    assumed), every implicit conversion of the source is an explicit [cast],
    and the IEEE 754 formats are given as instances at the end of the
    definitions, so that every function below can be run. *)

From Stdlib Require Import ZArith Lia.
From Stdlib Require Import Floats.SpecFloat.
From stdpp Require Import base list sets sorting.

(** ** Numeric types *)

(** The operations the source applies to values of a numeric type [T]. *)
Class Numeric (T : Type) : Type := {
  num_zero : T;               (* [T()]: what [setZero] and [resize] fill in *)
  num_one  : T;               (* the diagonal of [setIdentity] *)
  num_neg  : T -> T;          (* unary [-] *)
  num_add  : T -> T -> T;
  num_sub  : T -> T -> T;
  num_mul  : T -> T -> T;
  num_div  : T -> T -> T;
  num_sqrt : T -> T;          (* [sqrt] *)
  num_eqb  : T -> T -> bool;  (* [==] *)
  num_ltb  : T -> T -> bool   (* [<], the comparison of [std::sort] *)
}.

(** An implicit conversion from [A] to [B].  The instance [Cast Z double] is
    the literal [k.0]; [Cast nat double] is the conversion of a [size_t]. *)
Class Cast (A B : Type) : Type := cast : A -> B.
Global Arguments cast {A B _} _ : assert.

Declare Scope num_scope.
Delimit Scope num_scope with num.
Notation "x + y" := (num_add x y) : num_scope.
Notation "x - y" := (num_sub x y) : num_scope.
Notation "x * y" := (num_mul x y) : num_scope.
Notation "x / y" := (num_div x y) : num_scope.
Notation "- x" := (num_neg x) : num_scope.

(** [x <= y] for [std::sort]'s comparison: [y] is not less than [x]. *)
Definition num_le {T} `{Numeric T} (x y : T) : Prop := num_ltb y x = false.

(** [<] is a strict order: asymmetric and transitive, as the comparison of
    every arithmetic type is. *)
Class StrictLt (T : Type) `{Numeric T} : Prop := {
  ltb_asym  : forall x y : T, num_ltb x y = true -> num_ltb y x = false;
  ltb_trans : forall x y z : T,
    num_ltb x y = true -> num_ltb y z = true -> num_ltb x z = true
}.


(** ** Matrix container *)

(** Modelled from the spec: [Spec1DMatrix] ([spec1dmatrix.hpp]) is a dense
    matrix container supporting resize, zero-fill, identity initialization
    and indexed element access.  A matrix is its dimensions and its entries,
    [A(i, j)] is [mat A i j]. *)
Record Spec1DMatrix (T : Type) : Type := mkMatrix {
  mrows : nat;
  mcols : nat;
  mat   : nat -> nat -> T
}.
Global Arguments mkMatrix {T} _ _ _.
Global Arguments mrows {T} _.
Global Arguments mcols {T} _.
Global Arguments mat {T} _ _ _.

(** Modelled from the spec: the operations of the container, [resize],
    zero-fill ([setZero]), identity initialization ([setIdentity]) and the
    assignment [A(i, j) = v] ([mset]). *)
Definition mresize {T} (r c : nat) (A : Spec1DMatrix T) : Spec1DMatrix T :=
  mkMatrix r c (mat A).

Definition msetZero {T} `{Numeric T} (A : Spec1DMatrix T) : Spec1DMatrix T :=
  mkMatrix (mrows A) (mcols A) (fun _ _ => num_zero).

Definition msetIdentity {T} `{Numeric T} (n : nat) : Spec1DMatrix T :=
  mkMatrix n n (fun i j => if decide (i = j) then num_one else num_zero).

Definition mset {T} (A : Spec1DMatrix T) (i j : nat) (v : T) : Spec1DMatrix T :=
  mkMatrix (mrows A) (mcols A)
    (fun r c => if decide (r = i /\ c = j) then v else mat A r c).

(** Modelled from the spec: a default-constructed matrix,
    [Spec1DMatrix<T> A;]. *)
Definition mempty {T} `{Numeric T} : Spec1DMatrix T :=
  mkMatrix 0 0 (fun _ _ => num_zero).

(** Modelled from the spec: [GEP] ([generalisedeigenproblem.hpp]) takes the
    pencil (A, B) and, on success, fills an eigenvalue table with one row
    (real numerator, imaginary numerator, denominator) per eigenvalue; it
    returns false on failure.  [None] is failure, [Some lambda] the table. *)
Definition GEPSolver (T : Type) : Type :=
  Spec1DMatrix T -> Spec1DMatrix T -> option (Spec1DMatrix T).

(** Modelled from the spec: [Polynomial] ([polynomial.hpp]) exposes its order
    and indexed coefficient access, from the constant term to the leading
    term. *)
Record Polynomial (T : Type) : Type := mkPoly {
  order : nat;
  coeff : nat -> T
}.
Global Arguments mkPoly {T} _ _.
Global Arguments order {T} _.
Global Arguments coeff {T} _ _.

(** ** Output parameters *)

(** The caller's [eig_real], [eig_imag] and [nreal], passed by reference. *)
Record Roots (T : Type) : Type := mkRoots {
  eig_real : list T;
  eig_imag : list T;
  nreal    : Z
}.
Global Arguments mkRoots {T} _ _ _.
Global Arguments eig_real {T} _.
Global Arguments eig_imag {T} _.
Global Arguments nreal {T} _.

(** The caller's [eig_real] and [nreal] of the two node solvers. *)
Record Nodes (T : Type) : Type := mkNodes {
  node_real  : list T;
  node_nreal : Z
}.
Global Arguments mkNodes {T} _ _.
Global Arguments node_real {T} _.
Global Arguments node_nreal {T} _.

(** ** [std::sort] *)

Section Sort.
Context {T : Type} `{Numeric T}.

Fixpoint sort_insert (x : T) (l : list T) : list T :=
  match l with
  | [] => [x]
  | y :: l' => if num_ltb x y then x :: l else y :: sort_insert x l'
  end.

(** [std::sort(first, last)] orders by [<]; the standard fixes its result up
    to the order of equivalent elements.  Insertion sort stands for it. *)
Definition std_sort (l : list T) : list T := foldr sort_insert [] l.

(** [std::sort(v.begin(), v.begin() + n)]. *)
Definition sort_prefix (n : nat) (v : list T) : list T :=
  std_sort (take n v) ++ drop n v.

End Sort.

(** ** The generic root solver *)

Section Generic.
Context {real double ldouble : Type}.
Context `{Numeric real} `{Numeric ldouble}.
Context `{Cast Z double} `{Cast double real}.
Context `{Cast real ldouble} `{Cast ldouble real}.
Variable GEP : GEPSolver real.

(** One iteration of the loop that fills the companion matrix. *)
Definition companion_step (poly : Polynomial real) (denom : ldouble)
    (A : Spec1DMatrix real) (i : nat) : Spec1DMatrix real :=
  let N := order poly in
  let A1 :=
    mset A 0 i (cast (cast (- coeff poly (N - i - 1))%num / denom)%num) in
  if decide (i < N - 1) then mset A1 (i + 1) i (cast (cast 1%Z : double))
  else A1.

Definition companion_matrix (poly : Polynomial real) : Spec1DMatrix real :=
  let N := order poly in
  let denom : ldouble := cast (coeff poly N) in
  foldl (companion_step poly denom) (msetZero (mresize N N mempty)) (seq 0 N).

(** The state of the classification loop: the two vectors, [nreal] and
    [nimag].  The counters are [int] in the source and only count up from 0;
    [nreal] goes back to the caller as an integer. *)
Record Classify : Type := mkClassify {
  c_real  : list real;
  c_imag  : list real;
  c_nreal : nat;
  c_nimag : nat
}.

Definition is_real_row (lambda : Spec1DMatrix real) (i : nat) : bool :=
  num_eqb (mat lambda i 1) (cast (cast 0%Z : double)).

(** The index row [i] is written at. *)
Definition classify_pos (N : nat) (lambda : Spec1DMatrix real)
    (st : Classify) (i : nat) : nat :=
  if is_real_row lambda i then c_nreal st else N - 1 - c_nimag st.

(** One iteration of the classification loop. *)
Definition classify_row (N : nat) (lambda : Spec1DMatrix real)
    (st : Classify) (i : nat) : Classify :=
  if is_real_row lambda i then
    mkClassify
      (<[c_nreal st := (mat lambda i 0 / mat lambda i 2)%num]> (c_real st))
      (<[c_nreal st := cast (cast 0%Z : double)]> (c_imag st))
      (S (c_nreal st))
      (c_nimag st)
  else
    mkClassify
      (<[N - 1 - c_nimag st := (mat lambda i 0 / mat lambda i 2)%num]>
         (c_real st))
      (<[N - 1 - c_nimag st := (mat lambda i 1 / mat lambda i 2)%num]>
         (c_imag st))
      (c_nreal st)
      (S (c_nimag st)).

(** The rows with a zero imaginary numerator, and the others. *)
Definition real_rows (lambda : Spec1DMatrix real) (rows : list nat)
    : list nat :=
  filter (fun i => is_real_row lambda i = true) rows.

Definition complex_rows (lambda : Spec1DMatrix real) (rows : list nat)
    : list nat :=
  filter (fun i => ~ is_real_row lambda i = true) rows.

(** The quotients [lambda(i, 0) / lambda(i, 2)] and
    [lambda(i, 1) / lambda(i, 2)] of row [i]. *)
Definition quot_re (lambda : Spec1DMatrix real) (i : nat) : real :=
  (mat lambda i 0 / mat lambda i 2)%num.

Definition quot_im (lambda : Spec1DMatrix real) (i : nat) : real :=
  (mat lambda i 1 / mat lambda i 2)%num.

(** The pair that row [i] leaves in [eig_real] and [eig_imag]. *)
Definition row_root (lambda : Spec1DMatrix real) (i : nat) : real * real :=
  (quot_re lambda i,
   if is_real_row lambda i then cast (cast 0%Z : double)
   else quot_im lambda i).

(** Rows [i] and [j] hold conjugate eigenvalues. *)
Definition conjugate_rows (lambda : Spec1DMatrix real) (i j : nat) : Prop :=
  quot_re lambda j = quot_re lambda i
  /\ quot_im lambda j = (- quot_im lambda i)%num.

(** The rows of a list of pairs of rows. *)
Definition pair_rows (pairs : list (nat * nat)) : list nat :=
  foldr (fun p l => p.1 :: p.2 :: l) [] pairs.

(** The complex rows among [rows] are [npairs] conjugate pairs. *)
Definition conjugate_paired (lambda : Spec1DMatrix real) (rows : list nat)
    (npairs : nat) : Prop :=
  exists pairs : list (nat * nat),
    length pairs = npairs
    /\ complex_rows lambda rows ≡ₚ pair_rows pairs
    /\ Forall (fun p => conjugate_rows lambda p.1 p.2) pairs.

Definition classify_init (N : nat) (out : Roots real) : Classify :=
  mkClassify (resize N num_zero (eig_real out))
             (resize N num_zero (eig_imag out)) 0 0.

Definition classify (N : nat) (lambda : Spec1DMatrix real)
    (out : Roots real) (rows : list nat) : Classify :=
  foldl (classify_row N lambda) (classify_init N out) rows.

(** The indices written by the loop, in the order of the rows. *)
Fixpoint classify_trace (N : nat) (lambda : Spec1DMatrix real)
    (st : Classify) (rows : list nat) : list nat :=
  match rows with
  | [] => []
  | i :: rows' =>
      classify_pos N lambda st i
        :: classify_trace N lambda (classify_row N lambda st i) rows'
  end.

Definition eigensolveroots (poly : Polynomial real) (out : Roots real)
    : bool * Roots real :=
  let N := order poly in
  match GEP (companion_matrix poly) (msetIdentity N) with
  | None => (false, out)
  | Some lambda =>
      let st := classify N lambda out (seq 0 N) in
      (true, mkRoots (sort_prefix (c_nreal st) (c_real st))
                     (c_imag st)
                     (Z.of_nat (c_nreal st)))
  end.

End Generic.

(** ** Packing the real eigenvalues of the node solvers *)

(** The loops of the two node solvers keep the rows with a zero imaginary
    numerator and drop the others.  [keep i] is the test on row [i] and
    [quot i] the value stored, already in the caller's type. *)
Definition pack_row {T} (keep : nat -> bool) (quot : nat -> T)
    (st : list T * nat) (i : nat) : list T * nat :=
  if keep i then (<[st.2 := quot i]> st.1, S st.2) else st.

(** The rows a node solver keeps. *)
Definition kept (keep : nat -> bool) (rows : list nat) : list nat :=
  filter (fun i => keep i = true) rows.

(** ** The Lobatto node solver *)

Section Lobatto.
Context {real double ldouble : Type}.
Context `{Numeric real} `{Numeric double} `{Numeric ldouble}.
Context `{Cast Z double} `{Cast nat double} `{Cast double real}.
Context `{Cast double ldouble} `{Cast ldouble double}.
Variable GEP : GEPSolver double.

(** [order], [N] and [i] are [size_t] in the source; the general case has
    [order >= 3], so that no subtraction below wraps around, and they are
    natural numbers here. *)

(** The value stored at [A(i, i + 1)] for [i > 0]: [ii] and the expression
    are [long double], [sqrt] is taken at that type, and the result is
    narrowed to [double] by the assignment.  [num_sqrt] at [long double] is
    whatever [sqrt] denotes for a [long double] argument where the source is
    compiled; it is a parameter, as all the arithmetic is. *)
Definition lobatto_recurrence (i : nat) : double :=
  let ii : ldouble := cast ((cast 1%Z : double) + cast i)%num in
  let one : ldouble := cast (cast 1%Z : double) in
  let two : ldouble := cast (cast 2%Z : double) in
  cast (two * num_sqrt (ii * (ii + one) * (ii + one) * (ii + two)
                         / ((two * ii + two) * (two * ii + two) - one))
        / (two * ii + two))%num.

(** One iteration of the loop that fills the Jacobi matrix. *)
Definition lobatto_step (A : Spec1DMatrix double) (i : nat)
    : Spec1DMatrix double :=
  if decide (i = 0) then
    let A1 := mset A i (i + 1) (cast 1%Z / num_sqrt (cast 5%Z))%num in
    mset A1 (i + 1) i (cast 1%Z / num_sqrt (cast 5%Z))%num
  else
    let A1 := mset A i (i + 1) (lobatto_recurrence i) in
    mset A1 (i + 1) i (mat A1 i (i + 1)).

Definition lobatto_matrix (N : nat) : Spec1DMatrix double :=
  foldl lobatto_step (msetZero (mresize N N mempty)) (seq 0 (N - 1)).

(** The off-diagonal entry as the specification writes it, for the one-based
    index [i']: 2 sqrt(i'(i'+1)^2(i'+2) / ((2i'+2)^2 - 1)) / (2i'+2).  A
    square is a product, and a product is taken from left to right. *)
Definition lobatto_offdiag_spec (i' : ldouble) : ldouble :=
  let one : ldouble := cast (cast 1%Z : double) in
  let two : ldouble := cast (cast 2%Z : double) in
  (two * num_sqrt (i' * (i' + one) * (i' + one) * (i' + two)
                   / ((two * i' + two) * (two * i' + two) - one))
   / (two * i' + two))%num.

Definition lobatto_keep (lambda : Spec1DMatrix double) (i : nat) : bool :=
  num_eqb (mat lambda i 1) (cast 0%Z).

Definition lobatto_quot (lambda : Spec1DMatrix double) (i : nat) : real :=
  cast (mat lambda i 0 / mat lambda i 2)%num.

Definition lobatto_pack (N : nat) (lambda : Spec1DMatrix double)
    (eig : list real) : list real * nat :=
  foldl (pack_row (lobatto_keep lambda) (lobatto_quot lambda))
        (resize N num_zero eig, 0) (seq 0 N).

Definition eigensolveroots_lobatto (order : nat) (out : Nodes real)
    : bool * Nodes real :=
  match order with
  | 0 =>
      (true, mkNodes (node_real out ++ [cast (cast 0%Z : double)]) 1)
  | 1 =>
      (true, mkNodes ((node_real out ++ [cast (- (cast 1%Z : double))%num])
                        ++ [cast (cast 1%Z : double)]) 2)
  | 2 =>
      (true, mkNodes (((node_real out ++ [cast (- (cast 1%Z : double))%num])
                         ++ [cast (cast 0%Z : double)])
                        ++ [cast (cast 1%Z : double)]) 3)
  | _ =>
      let N := order - 1 in
      match GEP (lobatto_matrix N) (msetIdentity N) with
      | None => (false, out)
      | Some lambda =>
          let st := lobatto_pack N lambda (node_real out) in
          (true, mkNodes (sort_prefix st.2 st.1) (Z.of_nat st.2))
      end
  end.

End Lobatto.

(** ** The Laguerre node solver *)

Section Laguerre.
Context {real double : Type}.
Context `{Numeric real} `{Numeric double}.
Context `{Cast Z double} `{Cast nat double} `{Cast double real}.
Variable GEP : GEPSolver real.

(** One iteration of the loop that fills the Jacobi matrix. *)
Definition laguerre_step (N : nat) (A : Spec1DMatrix real) (i : nat)
    : Spec1DMatrix real :=
  let A1 := mset A i i (cast ((cast 2%Z : double) * cast (i + 1)%nat)%num) in
  if decide (i < N - 1) then
    let A2 :=
      mset A1 i (i + 1)
        (cast (num_sqrt (((cast 1%Z : double) + cast i)
                         * ((cast 2%Z : double) + cast i)))%num) in
    mset A2 (i + 1) i (mat A2 i (i + 1))
  else A1.

Definition laguerre_matrix (N : nat) : Spec1DMatrix real :=
  foldl (laguerre_step N) (msetZero (mresize N N mempty)) (seq 0 N).

Definition laguerre_keep (lambda : Spec1DMatrix real) (i : nat) : bool :=
  num_eqb (mat lambda i 1) (cast (cast 0%Z : double)).

Definition laguerre_quot (lambda : Spec1DMatrix real) (i : nat) : real :=
  (mat lambda i 0 / mat lambda i 2)%num.

Definition laguerre_pack (N : nat) (lambda : Spec1DMatrix real)
    (eig : list real) : list real * nat :=
  foldl (pack_row (laguerre_keep lambda) (laguerre_quot lambda))
        (resize N num_zero eig, 0) (seq 0 N).

Definition eigensolveroots_laguerre (order : nat) (out : Nodes real)
    : bool * Nodes real :=
  match order with
  | 0 => (true, mkNodes (node_real out) 0)
  | 1 => (true, mkNodes (node_real out ++ [cast (cast 2%Z : double)]) 1)
  | _ =>
      let N := order in
      match GEP (laguerre_matrix N) (msetIdentity N) with
      | None => (false, out)
      | Some lambda =>
          let st := laguerre_pack N lambda (node_real out) in
          (true, mkNodes (sort_prefix st.2 st.1) (Z.of_nat st.2))
      end
  end.

End Laguerre.

(** ** IEEE 754 instances *)

(** The binary formats of [float], [double] and the x87 [long double], over
    the Standard Library's executable specification of IEEE 754 arithmetic
    (round to nearest, ties to even). *)
Module IEEE.

Section Format.
Variables prec emax : Z.

Definition of_Z (z : Z) : spec_float := binary_normalize prec emax z 0 false.

(** Rounding a value of another format into this one. *)
Definition round (x : spec_float) : spec_float :=
  match x with
  | S754_finite s m e => binary_round prec emax s m e
  | _ => x
  end.

Definition numeric : Numeric spec_float := {|
  num_zero := S754_zero false;
  num_one  := of_Z 1;
  num_neg  := SFopp;
  num_add  := SFadd prec emax;
  num_sub  := SFsub prec emax;
  num_mul  := SFmul prec emax;
  num_div  := SFdiv prec emax;
  num_sqrt := SFsqrt prec emax;
  num_eqb  := SFeqb;
  num_ltb  := SFltb
|}.

End Format.

Variant binary32 : Type := B32 (x : spec_float).
Variant binary64 : Type := B64 (x : spec_float).
Variant binary80 : Type := B80 (x : spec_float).

Definition b32 (x : binary32) : spec_float := let 'B32 v := x in v.
Definition b64 (x : binary64) : spec_float := let 'B64 v := x in v.
Definition b80 (x : binary80) : spec_float := let 'B80 v := x in v.

(** A [Numeric] instance carried along a wrapper [wrap] / [unwrap]. *)
Definition lift {T} (wrap : spec_float -> T) (unwrap : T -> spec_float)
    (N : Numeric spec_float) : Numeric T := {|
  num_zero := wrap (@num_zero _ N);
  num_one  := wrap (@num_one _ N);
  num_neg x := wrap (@num_neg _ N (unwrap x));
  num_add x y := wrap (@num_add _ N (unwrap x) (unwrap y));
  num_sub x y := wrap (@num_sub _ N (unwrap x) (unwrap y));
  num_mul x y := wrap (@num_mul _ N (unwrap x) (unwrap y));
  num_div x y := wrap (@num_div _ N (unwrap x) (unwrap y));
  num_sqrt x := wrap (@num_sqrt _ N (unwrap x));
  num_eqb x y := @num_eqb _ N (unwrap x) (unwrap y);
  num_ltb x y := @num_ltb _ N (unwrap x) (unwrap y)
|}.

#[export] Instance binary32_numeric : Numeric binary32 :=
  lift B32 b32 (numeric 24 128).
#[export] Instance binary64_numeric : Numeric binary64 :=
  lift B64 b64 (numeric 53 1024).
#[export] Instance binary80_numeric : Numeric binary80 :=
  lift B80 b80 (numeric 64 16384).

#[export] Instance lit64 : Cast Z binary64 := fun z => B64 (of_Z 53 1024 z).
#[export] Instance size64 : Cast nat binary64 :=
  fun n => B64 (of_Z 53 1024 (Z.of_nat n)).
#[export] Instance cast_64_32 : Cast binary64 binary32 :=
  fun x => B32 (round 24 128 (b64 x)).
#[export] Instance cast_64_64 : Cast binary64 binary64 := fun x => x.
#[export] Instance cast_64_80 : Cast binary64 binary80 :=
  fun x => B80 (round 64 16384 (b64 x)).
#[export] Instance cast_80_64 : Cast binary80 binary64 :=
  fun x => B64 (round 53 1024 (b80 x)).
#[export] Instance cast_32_80 : Cast binary32 binary80 :=
  fun x => B80 (round 64 16384 (b32 x)).
#[export] Instance cast_80_32 : Cast binary80 binary32 :=
  fun x => B32 (round 24 128 (b80 x)).

#[export] Instance cast_32_64 : Cast binary32 binary64 :=
  fun x => B64 (round 53 1024 (b32 x)).
#[export] Instance cast_80_80 : Cast binary80 binary80 := fun x => x.

(** The place of a value in the order of [SFcompare]: the sign class, then
    the exponent and the mantissa, both negated for a negative value.  A NaN
    has none. *)
Definition sf_key (x : spec_float) : option (Z * Z * Z) :=
  match x with
  | S754_nan => None
  | S754_zero _ => Some (0, 0, 0)%Z
  | S754_infinity s => Some (if s then (-2) else 2, 0, 0)%Z
  | S754_finite s m e =>
      Some (if s then ((-1), (- e), Zneg m) else (1, e, Zpos m))%Z
  end.

(** The lexicographic comparison of two keys. *)
Definition key_compare (a b : Z * Z * Z) : comparison :=
  match (a.1.1 ?= b.1.1)%Z with
  | Eq => match (a.1.2 ?= b.1.2)%Z with
          | Eq => (a.2 ?= b.2)%Z
          | c => c
          end
  | c => c
  end.

End IEEE.

(** ** Inputs for running the solvers *)

(** A polynomial given by its coefficients, constant term first. *)
Definition poly_of {T} `{Numeric T} (cs : list T) : Polynomial T :=
  mkPoly (length cs - 1) (fun i => default num_zero (cs !! i)).

(** An eigenvalue table given by its rows. *)
Definition table {T} `{Numeric T} (rows : list (T * T * T)) : Spec1DMatrix T :=
  mkMatrix (length rows) 3
    (fun i k =>
       match rows !! i with
       | Some (re, im, den) =>
           match k with 0 => re | 1 => im | _ => den end
       | None => num_zero
       end).

(** A solver that fails, and one that answers with a given table. *)
Definition GEP_fails {T} : GEPSolver T := fun _ _ => None.

Definition GEP_answers {T} (lambda : Spec1DMatrix T) : GEPSolver T :=
  fun _ _ => Some lambda.

(** A solver that answers with a given table on the pencils that pass a
    test, and fails on the others. *)
Definition GEP_expects {T} (test : Spec1DMatrix T -> Spec1DMatrix T -> bool)
    (lambda : Spec1DMatrix T) : GEPSolver T :=
  fun A B => if test A B then Some lambda else None.

(** The test that an [n] x [n] pencil has the entries listed, row by row,
    and the identity beside it. *)
Definition pencil_is {T} `{Numeric T} (n : nat) (entries : list (list T))
    (A B : Spec1DMatrix T) : bool :=
  bool_decide (mrows A = n /\ mcols A = n /\ mrows B = n /\ mcols B = n)
  && forallb (fun i => forallb (fun j =>
       num_eqb (mat A i j) (default num_zero (default [] (entries !! i) !! j))
       && num_eqb (mat B i j) (if decide (i = j) then num_one else num_zero))
       (seq 0 n)) (seq 0 n).

(** Inputs in IEEE arithmetic: the caller's type is [double] or [float],
    [long double] is the x87 format. *)
Module Examples.
Import IEEE.

Definition d (z : Z) : binary64 := cast z.

(** x^2 - 1, with the eigenvalues 1 and -1. *)
Definition quadratic : Polynomial binary64 := poly_of [d (-1); d 0; d 1].

Definition quadratic_roots : Spec1DMatrix binary64 :=
  table [(d 1, d 0, d 1); (d (-1), d 0, d 1)].

(** x^3 - 1, with the eigenvalues 1 and (-1 +- i sqrt 3) / 2. *)
Definition cubic : Polynomial binary64 := poly_of [d (-1); d 0; d 0; d 1].

Definition cubic_roots : Spec1DMatrix binary64 :=
  table [(d (-1), num_sqrt (d 3), d 2);
         (d 1, d 0, d 1);
         (d (-1), (- num_sqrt (d 3))%num, d 2)].

(** A table of three rows, the last with a nonzero imaginary numerator. *)
Definition mixed_rows : Spec1DMatrix binary64 :=
  table [(d 3, d 0, d 4); (d (-3), d 0, d 4); (d 0, d 1, d 1)].

Definition no_roots : Roots binary64 := mkRoots [] [] 0.

Definition no_nodes : Nodes binary64 := mkNodes [] 0.

End Examples.

(** * Properties *)

(** ** The matrix container *)

Lemma mat_mset {T} (A : Spec1DMatrix T) i j v r c :
  mat (mset A i j v) r c = if decide (r = i /\ c = j) then v else mat A r c.
Proof. reflexivity. Qed.

Lemma mrows_foldl {T} (f : Spec1DMatrix T -> nat -> Spec1DMatrix T) A l :
  (forall B i, mrows (f B i) = mrows B) -> mrows (foldl f A l) = mrows A.
Proof.
  intros Hf. revert A. induction l as [|i l IH]; intros A; simpl; [done|].
  by rewrite IH, Hf.
Qed.

Lemma mcols_foldl {T} (f : Spec1DMatrix T -> nat -> Spec1DMatrix T) A l :
  (forall B i, mcols (f B i) = mcols B) -> mcols (foldl f A l) = mcols A.
Proof.
  intros Hf. revert A. induction l as [|i l IH]; intros A; simpl; [done|].
  by rewrite IH, Hf.
Qed.

(** ** [std::sort] *)

Section SortFacts.
Context {T : Type} `{Numeric T}.

Lemma sort_insert_perm (x : T) l : sort_insert x l ≡ₚ x :: l.
Proof.
  induction l as [|y l IH]; simpl; [done|].
  destruct (num_ltb x y); [done|]. rewrite IH. apply Permutation_swap.
Qed.

Lemma std_sort_perm (l : list T) : std_sort l ≡ₚ l.
Proof.
  induction l as [|x l IH]; simpl; [done|].
  rewrite sort_insert_perm. by rewrite IH.
Qed.

Lemma length_std_sort (l : list T) : length (std_sort l) = length l.
Proof. by rewrite std_sort_perm. Qed.

Lemma length_sort_prefix n (v : list T) : length (sort_prefix n v) = length v.
Proof.
  unfold sort_prefix.
  rewrite length_app, length_std_sort, <-length_app. by rewrite take_drop.
Qed.

Lemma take_sort_prefix n (v : list T) :
  take n (sort_prefix n v) = std_sort (take n v).
Proof.
  unfold sort_prefix. destruct (decide (n <= length v)) as [Hn|Hn].
  - apply take_app_length'. rewrite length_std_sort, length_take. lia.
  - rewrite drop_ge, app_nil_r by lia. apply take_ge.
    rewrite length_std_sort, length_take. lia.
Qed.

Lemma drop_sort_prefix n (v : list T) :
  drop n (sort_prefix n v) = drop n v.
Proof.
  unfold sort_prefix. destruct (decide (n <= length v)) as [Hn|Hn].
  - apply drop_app_length'. rewrite length_std_sort, length_take. lia.
  - rewrite !drop_ge; [done|lia|].
    rewrite length_app, length_std_sort, length_take, length_drop. lia.
Qed.

End SortFacts.

(** ** The generic root solver: the companion pencil *)

Section CompanionFacts.
Context {real double ldouble : Type}.
Context `{Numeric real} `{Numeric ldouble}.
Context `{Cast Z double} `{Cast double real}.
Context `{Cast real ldouble} `{Cast ldouble real}.

Lemma companion_step_dims (poly : Polynomial real) (denom : ldouble) A i :
  mrows (companion_step (double:=double) poly denom A i) = mrows A
  /\ mcols (companion_step (double:=double) poly denom A i) = mcols A.
Proof. unfold companion_step. by case_decide. Qed.

(** The matrix after the first [k] iterations of the loop. *)
Lemma companion_prefix (poly : Polynomial real) (k r c : nat) :
  let N := order poly in
  mat (foldl (companion_step (double:=double) poly (cast (coeff poly N)))
             (msetZero (mresize N N mempty)) (seq 0 k)) r c
  = if decide (r = 0 /\ c < k) then (cast (cast (- coeff poly (N - c - 1))%num
                  / (cast (coeff poly N) : ldouble))%num : real)
    else if decide (r = c + 1 /\ c < k /\ c < N - 1)
         then cast (cast 1%Z : double)
         else num_zero.
Proof.
  intros N. induction k as [|k IH].
  { simpl. repeat case_decide; (done || lia). }
  rewrite seq_S, foldl_app. simpl foldl. unfold companion_step at 1.
  fold N. destruct (decide (k < N - 1)); rewrite ?mat_mset, IH; clear IH;
    repeat case_decide; subst; try reflexivity; try lia;
    destruct_and?; subst; try reflexivity; try lia.
Qed.

End CompanionFacts.

(** ** The generic root solver: the classification loop *)

Section ListFacts.
Context {T : Type}.

(** Writing at the first free slot of a vector filled from both ends. *)
Lemma fill_front (A M C : list T) (x y : T) :
  <[length A := x]> (A ++ (y :: M) ++ C) = (A ++ [x]) ++ M ++ C.
Proof.
  rewrite <-(Nat.add_0_r (length A)), insert_app_r. simpl.
  by rewrite <-app_assoc.
Qed.

(** Writing at the last free slot. *)
Lemma fill_back (n c : nat) (A M C : list T) (x y : T) :
  c = length C -> n = length A + length M + 1 + c ->
  <[n - 1 - c := x]> (A ++ (M ++ [y]) ++ C) = A ++ M ++ x :: C.
Proof.
  intros -> ->.
  replace (length A + length M + 1 + length C - 1 - length C)
    with (length A + (length M + 0)) by lia.
  rewrite insert_app_r, <-app_assoc, insert_app_r. done.
Qed.

Lemma take_drop_head (v : list T) (k m : nat) :
  k < length v ->
  exists y, take (S m) (drop k v) = y :: take m (drop (S k) v).
Proof.
  intros Hk. destruct (lookup_lt_is_Some_2 v k Hk) as [y Hy].
  exists y. by rewrite (drop_S _ _ _ Hy).
Qed.

Lemma take_drop_last (v : list T) (k m : nat) :
  k + m < length v ->
  exists z, take (S m) (drop k v) = take m (drop k v) ++ [z].
Proof.
  intros Hk. destruct (lookup_lt_is_Some_2 v (k + m)) as [z Hz]; [lia|].
  exists z. apply take_S_r. by rewrite lookup_drop.
Qed.

End ListFacts.

Section ClassifyFacts.
Context {real double ldouble : Type}.
Context `{Numeric real}.
Context `{Cast Z double} `{Cast double real}.
Variable N : nat.
Variable lambda : Spec1DMatrix real.
Variable out : Roots real.

Lemma rows_split_length (rows : list nat) :
  length (real_rows lambda rows)
  + length (complex_rows lambda rows) = length rows.
Proof.
  unfold real_rows, complex_rows. rewrite <-length_app.
  by rewrite filter_app_complement.
Qed.

Lemma real_rows_app l1 l2 :
  real_rows lambda (l1 ++ l2) = real_rows lambda l1 ++ real_rows lambda l2.
Proof. apply filter_app. Qed.

Lemma complex_rows_app l1 l2 :
  complex_rows lambda (l1 ++ l2)
  = complex_rows lambda l1 ++ complex_rows lambda l2.
Proof. apply filter_app. Qed.

Lemma real_rows_cons i l :
  real_rows lambda (i :: l)
  = if is_real_row lambda i then i :: real_rows lambda l
    else real_rows lambda l.
Proof.
  unfold real_rows. destruct (is_real_row lambda i) eqn:Hi.
  - by rewrite filter_cons_True.
  - rewrite filter_cons_False; [done|]. by rewrite Hi.
Qed.

Lemma complex_rows_cons i l :
  complex_rows lambda (i :: l)
  = if is_real_row lambda i then complex_rows lambda l
    else i :: complex_rows lambda l.
Proof.
  unfold complex_rows. destruct (is_real_row lambda i) eqn:Hi.
  - rewrite filter_cons_False; [done|]. rewrite Hi. by intros [].
  - rewrite filter_cons_True; [done|]. by rewrite Hi.
Qed.

Lemma real_rows_snoc rows i :
  real_rows lambda (rows ++ [i])
  = real_rows lambda rows ++ (if is_real_row lambda i then [i] else []).
Proof.
  rewrite real_rows_app, real_rows_cons. by destruct (is_real_row lambda i).
Qed.

Lemma complex_rows_snoc rows i :
  complex_rows lambda (rows ++ [i])
  = complex_rows lambda rows ++ (if is_real_row lambda i then [] else [i]).
Proof.
  rewrite complex_rows_app, complex_rows_cons.
  by destruct (is_real_row lambda i).
Qed.

(** The state of the loop after the rows [rows]: the real roots fill the
    vectors from the front, the complex roots from the back, and the slots
    between them are as [resize] left them. *)
Lemma classify_closed (rows : list nat) :
  length rows <= N ->
  let st := classify N lambda out rows in
  let Rs := real_rows lambda rows in
  let Cs := complex_rows lambda rows in
  c_nreal st = length Rs
  /\ c_nimag st = length Cs
  /\ c_real st
     = (quot_re lambda <$> Rs)
       ++ take (N - length rows)
               (drop (length Rs) (resize N num_zero (eig_real out)))
       ++ reverse (quot_re lambda <$> Cs)
  /\ c_imag st
     = ((fun _ => cast (cast 0%Z : double)) <$> Rs)
       ++ take (N - length rows)
               (drop (length Rs) (resize N num_zero (eig_imag out)))
       ++ reverse (quot_im lambda <$> Cs).
Proof.
  induction rows as [|i rows IH] using rev_ind; intros Hlen.
  { simpl. rewrite Nat.sub_0_r, !drop_0, !app_nil_r.
    rewrite !take_ge by (rewrite length_resize; lia). done. }
  rewrite length_app in Hlen. simpl in Hlen.
  destruct IH as (IHr & IHi & IHre & IHim); [lia|].
  pose proof (rows_split_length rows) as Hsplit.
  intros st Rs Cs. unfold st, Rs, Cs, classify.
  rewrite foldl_snoc. fold (classify N lambda out rows).
  rewrite real_rows_snoc, complex_rows_snoc.
  assert (exists m, N - length rows = S m /\ N - (length rows + 1) = m)
    as (m & Hm & Hm') by (exists (N - length rows - 1); lia).
  unfold classify_row.
  destruct (is_real_row lambda i) eqn:Hi; simpl;
    rewrite IHr, ?IHi, IHre, IHim, ?app_nil_r, !length_app; simpl length;
    rewrite Hm, Hm'.
  - split; [lia|]. split; [done|].
    destruct (take_drop_head (resize N num_zero (eig_real out))
                (length (real_rows lambda rows)) m)
      as [y Hy]; [rewrite length_resize; lia|].
    destruct (take_drop_head (resize N num_zero (eig_imag out))
                (length (real_rows lambda rows)) m)
      as [z Hz]; [rewrite length_resize; lia|].
    rewrite Hy, Hz, !fmap_app, Nat.add_1_r. simpl. split.
    + rewrite <-(length_fmap (quot_re lambda)) at 1. apply fill_front.
    + rewrite <-(length_fmap (fun _ : nat => (cast (cast 0%Z : double) : real)))
        at 1.
      apply fill_front.
  - split; [done|]. split; [lia|].
    destruct (take_drop_last (resize N num_zero (eig_real out))
                (length (real_rows lambda rows)) m)
      as [y Hy]; [rewrite length_resize; lia|].
    destruct (take_drop_last (resize N num_zero (eig_imag out))
                (length (real_rows lambda rows)) m)
      as [z Hz]; [rewrite length_resize; lia|].
    rewrite Hy, Hz, !fmap_app. simpl. rewrite !reverse_snoc.
    split; apply fill_back;
      rewrite ?length_fmap, ?length_reverse, ?length_take, ?length_drop,
        ?length_resize, ?length_fmap; lia.
Qed.

Lemma classify_row_counts st i :
  c_nreal (classify_row N lambda st i)
    = (if is_real_row lambda i then S (c_nreal st) else c_nreal st)
  /\ c_nimag (classify_row N lambda st i)
    = (if is_real_row lambda i then c_nimag st else S (c_nimag st)).
Proof. unfold classify_row. by destruct (is_real_row lambda i). Qed.

(** [classify_pos] is the index [classify_row] writes at. *)
Lemma classify_row_writes st i :
  c_real (classify_row N lambda st i)
    = <[classify_pos N lambda st i := quot_re lambda i]> (c_real st)
  /\ c_imag (classify_row N lambda st i)
    = <[classify_pos N lambda st i :=
          if is_real_row lambda i then cast (cast 0%Z : double)
          else quot_im lambda i]> (c_imag st).
Proof.
  unfold classify_row, classify_pos. by destruct (is_real_row lambda i).
Qed.

(** The slots written by the rows still to come are the free ones. *)
Lemma classify_trace_perm (rows : list nat) (st : Classify) :
  c_nreal st + c_nimag st + length rows = N ->
  classify_trace N lambda st rows ≡ₚ seq (c_nreal st) (length rows).
Proof.
  revert st. induction rows as [|i rows IH]; intros st Hst; simpl; [done|].
  simpl in Hst. destruct (classify_row_counts st i) as [Hr Hi].
  unfold classify_pos. destruct (is_real_row lambda i).
  - rewrite IH by lia. by rewrite Hr.
  - rewrite IH by lia. rewrite Hr.
    replace (N - 1 - c_nimag st) with (c_nreal st + length rows) by lia.
    rewrite Permutation_cons_append. by rewrite <-seq_S.
Qed.

Lemma seq_split (n i : nat) :
  i < n -> seq 0 n = seq 0 i ++ i :: seq (S i) (n - S i).
Proof.
  intros Hi. replace n with (i + S (n - S i)) at 1 by lia.
  by rewrite seq_app.
Qed.

Lemma classify_final :
  let fin := classify N lambda out (seq 0 N) in
  c_nreal fin = length (real_rows lambda (seq 0 N))
  /\ c_nimag fin = length (complex_rows lambda (seq 0 N))
  /\ c_real fin = (quot_re lambda <$> real_rows lambda (seq 0 N))
                  ++ reverse (quot_re lambda <$> complex_rows lambda (seq 0 N))
  /\ c_imag fin = ((fun _ => cast (cast 0%Z : double))
                    <$> real_rows lambda (seq 0 N))
                  ++ reverse (quot_im lambda <$> complex_rows lambda (seq 0 N)).
Proof.
  destruct (classify_closed (seq 0 N)) as (Hr & Hi & Hre & Him).
  { by rewrite length_seq. }
  rewrite length_seq, Nat.sub_diag, !take_0 in *. simpl in *. done.
Qed.

Lemma classify_final_real (i : nat) :
  i < N -> is_real_row lambda i = true ->
  let fin := classify N lambda out (seq 0 N) in
  let p := length (real_rows lambda (seq 0 i)) in
  c_real fin !! p = Some (quot_re lambda i)
  /\ c_imag fin !! p = Some (cast (cast 0%Z : double)).
Proof.
  intros Hi Hreal. cbv zeta. destruct classify_final as (_ & _ & -> & ->).
  rewrite (seq_split N i Hi), real_rows_app, real_rows_cons, Hreal.
  rewrite !fmap_app, !fmap_cons, <-!app_assoc. simpl.
  split; apply list_lookup_middle; by rewrite length_fmap.
Qed.

Lemma classify_final_complex (i : nat) :
  i < N -> is_real_row lambda i = false ->
  let fin := classify N lambda out (seq 0 N) in
  let p := N - 1 - length (complex_rows lambda (seq 0 i)) in
  c_real fin !! p = Some (quot_re lambda i)
  /\ c_imag fin !! p = Some (quot_im lambda i).
Proof.
  intros Hi Hcx. cbv zeta. destruct classify_final as (_ & _ & -> & ->).
  pose proof (rows_split_length (seq 0 N)) as Hsplit.
  rewrite length_seq in Hsplit. revert Hsplit.
  rewrite (seq_split N i Hi) at 2 4 6.
  rewrite complex_rows_app, complex_rows_cons, Hcx.
  rewrite !length_app. simpl length. intros Hsplit.
  rewrite !fmap_app, !fmap_cons, !reverse_app, !reverse_cons, <-!app_assoc.
  simpl.
  split; rewrite lookup_app_r by (rewrite length_fmap; lia);
    apply list_lookup_middle;
    rewrite !length_fmap, length_reverse, length_fmap; lia.
Qed.

End ClassifyFacts.

Section SortLookup.
Context {T : Type} `{Numeric T}.

Lemma lookup_sort_prefix_ge (n p : nat) (v : list T) :
  n <= p -> sort_prefix n v !! p = v !! p.
Proof.
  intros Hp. replace p with (n + (p - n)) by lia.
  by rewrite <-!lookup_drop, drop_sort_prefix.
Qed.

End SortLookup.

Section GenericFacts.
Context {real double ldouble : Type}.
Context `{Numeric real} `{Numeric ldouble}.
Context `{Cast Z double} `{Cast double real}.
Context `{Cast real ldouble} `{Cast ldouble real}.
Variable GEP : GEPSolver real.

Lemma eigensolveroots_success (poly : Polynomial real) (out : Roots real)
    (lambda : Spec1DMatrix real) :
  let N := order poly in
  let fin := classify N lambda out (seq 0 N) in
  GEP (companion_matrix poly) (msetIdentity N) = Some lambda ->
  eigensolveroots GEP poly out
  = (true, mkRoots (sort_prefix (c_nreal fin) (c_real fin)) (c_imag fin)
                   (Z.of_nat (c_nreal fin))).
Proof. intros N fin Hgep. unfold eigensolveroots. fold N. by rewrite Hgep. Qed.

Lemma classify_lengths (N : nat) (lambda : Spec1DMatrix real)
    (out : Roots real) :
  let fin := classify N lambda out (seq 0 N) in
  length (c_real fin) = N /\ length (c_imag fin) = N.
Proof.
  cbv zeta. destruct (classify_final N lambda out) as (_ & _ & -> & ->).
  pose proof (rows_split_length lambda (seq 0 N)) as Hsplit.
  rewrite length_seq in Hsplit.
  rewrite !length_app, !length_reverse, !length_fmap. done.
Qed.

(** C1: the output vectors are resized to N only after the eigenvalue solver
    has succeeded.  When the solver fails the function returns false and
    leaves [eig_real], [eig_imag] and [nreal] as the caller passed them; when
    it succeeds the function returns true with both vectors of length N. *)
Theorem eigensolveroots_resize (poly : Polynomial real) (out : Roots real) :
  let N := order poly in
  let res := eigensolveroots GEP poly out in
  match GEP (companion_matrix poly) (msetIdentity N) with
  | None => res = (false, out)
  | Some _ =>
      res.1 = true
      /\ length (eig_real res.2) = N /\ length (eig_imag res.2) = N
  end.
Proof.
  intros N res. unfold res, eigensolveroots. fold N.
  destruct (GEP _ _) as [lambda|]; [|done]. simpl.
  rewrite length_sort_prefix. split; [done|]. apply classify_lengths.
Qed.

(** C4: row [i] of a successful solve, met by the loop in state [st], is
    written as follows.  With a zero imaginary numerator its quotient goes to
    [eig_real[nreal]], 0 goes to [eig_imag[nreal]] and [nreal] is
    incremented; otherwise its two quotients go to [eig_real[N-1-nimag]] and
    [eig_imag[N-1-nimag]] and [nimag] is incremented.  Every such index is
    within the vectors, no later row writes there, and the values returned
    at that index are those of one row. *)
Theorem classify_row_placed (poly : Polynomial real) (out : Roots real)
    (lambda : Spec1DMatrix real) (i : nat) :
  let N := order poly in
  let res := eigensolveroots GEP poly out in
  let st := classify N lambda out (seq 0 i) in
  let st' := classify N lambda out (seq 0 (S i)) in
  let fin := classify N lambda out (seq 0 N) in
  let zero : real := cast (cast 0%Z : double) in
  GEP (companion_matrix poly) (msetIdentity N) = Some lambda ->
  i < N ->
  c_nreal st + c_nimag st = i
  /\ if is_real_row lambda i then
       st' = mkClassify (<[c_nreal st := quot_re lambda i]> (c_real st))
                        (<[c_nreal st := zero]> (c_imag st))
                        (S (c_nreal st)) (c_nimag st)
       /\ c_nreal st < length (c_real st)
       /\ c_nreal st < length (c_imag st)
       /\ c_nreal st < c_nreal fin
       /\ c_real fin !! c_nreal st = Some (quot_re lambda i)
       /\ eig_imag res.2 !! c_nreal st = Some zero
     else
       st' = mkClassify (<[N - 1 - c_nimag st := quot_re lambda i]> (c_real st))
                        (<[N - 1 - c_nimag st := quot_im lambda i]> (c_imag st))
                        (c_nreal st) (S (c_nimag st))
       /\ N - 1 - c_nimag st < length (c_real st)
       /\ N - 1 - c_nimag st < length (c_imag st)
       /\ c_nreal fin <= N - 1 - c_nimag st
       /\ eig_real res.2 !! (N - 1 - c_nimag st) = Some (quot_re lambda i)
       /\ eig_imag res.2 !! (N - 1 - c_nimag st) = Some (quot_im lambda i).
Proof.
  intros N res st st' fin zero Hgep Hi.
  destruct (classify_closed N lambda out (seq 0 i))
    as (Hr & Hc & Hre & Him); [rewrite length_seq; lia|].
  fold st in Hr, Hc, Hre, Him.
  pose proof (rows_split_length lambda (seq 0 i)) as Hsplit.
  rewrite length_seq in Hsplit.
  assert (length (c_real st) = N /\ length (c_imag st) = N) as [Hlr Hli].
  { rewrite Hre, Him, !length_app, !length_reverse, !length_fmap,
      !length_take, !length_drop, !length_resize, length_seq. lia. }
  destruct (classify_final N lambda out) as (Hfr & Hfc & _ & _).
  fold fin in Hfr, Hfc.
  pose proof (rows_split_length lambda (seq 0 N)) as HsplitN.
  rewrite length_seq in HsplitN.
  assert (st' = classify_row N lambda st i) as Hst'.
  { unfold st', st, classify. by rewrite seq_S, foldl_snoc. }
  split; [lia|].
  unfold res. rewrite (eigensolveroots_success poly out lambda Hgep).
  simpl. fold N fin.
  rewrite Hst'. unfold classify_row.
  destruct (is_real_row lambda i) eqn:Hrow.
  - destruct (classify_final_real N lambda out i Hi Hrow) as [Hre' Him'].
    fold fin in Hre', Him'. rewrite <-Hr in Hre', Him'.
    assert (c_nreal st < c_nreal fin).
    { rewrite Hfr, Hr, (seq_split N i Hi), real_rows_app, real_rows_cons, Hrow,
        length_app. simpl. lia. }
    repeat split; try done; lia.
  - destruct (classify_final_complex N lambda out i Hi Hrow) as [Hre' Him'].
    fold fin in Hre', Him'. rewrite <-Hc in Hre', Him'.
    assert (c_nreal fin <= N - 1 - c_nimag st).
    { assert (length (complex_rows lambda (seq 0 i))
              < length (complex_rows lambda (seq 0 N))); [|lia].
      rewrite (seq_split N i Hi).
      rewrite complex_rows_app, complex_rows_cons, Hrow, length_app.
      simpl. lia. }
    rewrite lookup_sort_prefix_ge by done.
    repeat split; try done; lia.
Qed.

End GenericFacts.

(** ** The node solvers: packing the real eigenvalues *)

Section PackFacts.
Context {T : Type}.
Variable keep : nat -> bool.
Variable quot : nat -> T.

Lemma kept_snoc rows i :
  kept keep (rows ++ [i]) = kept keep rows ++ (if keep i then [i] else []).
Proof.
  unfold kept. rewrite filter_app. f_equal. destruct (keep i) eqn:Hi.
  - by rewrite filter_cons_True.
  - rewrite filter_cons_False; [done|]. by rewrite Hi.
Qed.

Lemma length_kept rows : length (kept keep rows) <= length rows.
Proof. apply length_filter. Qed.

Lemma kept_dropped_lt rows i :
  i ∈ rows -> keep i = false -> length (kept keep rows) < length rows.
Proof.
  intros Hi Hk. apply length_filter_lt with i; [done|]. by rewrite Hk.
Qed.

(** The state of the loop after the rows [rows]: the kept quotients, in the
    order of the rows, then the vector as it was. *)
Lemma pack_closed (v : list T) (rows : list nat) :
  length rows <= length v ->
  foldl (pack_row keep quot) (v, 0) rows
  = ((quot <$> kept keep rows) ++ drop (length (kept keep rows)) v,
     length (kept keep rows)).
Proof.
  induction rows as [|i rows IH] using rev_ind; intros Hlen.
  { by rewrite drop_0. }
  rewrite length_app in Hlen. simpl in Hlen.
  rewrite foldl_snoc, IH, kept_snoc by lia.
  pose proof (length_kept rows) as Hk.
  unfold pack_row. simpl. destruct (keep i); [|by rewrite app_nil_r].
  rewrite length_app, fmap_app, Nat.add_1_r. simpl. f_equal.
  destruct (lookup_lt_is_Some_2 v (length (kept keep rows))) as [y Hy]; [lia|].
  rewrite (drop_S _ _ _ Hy), <-app_assoc. simpl.
  rewrite <-(length_fmap quot) at 1.
  rewrite <-(Nat.add_0_r (length (quot <$> _))), insert_app_r. done.
Qed.

End PackFacts.

(** ** The Lobatto pencil *)

Section LobattoFacts.
Context {double ldouble : Type}.
Context `{Numeric double} `{Numeric ldouble}.
Context `{Cast Z double} `{Cast nat double}.
Context `{Cast double ldouble} `{Cast ldouble double}.

(** The value the loop stores at [A(i, i + 1)] and [A(i + 1, i)]. *)
Lemma lobatto_step_dims (A : Spec1DMatrix double) i :
  mrows (lobatto_step A i) = mrows A /\ mcols (lobatto_step A i) = mcols A.
Proof. unfold lobatto_step. by case_decide. Qed.

Lemma lobatto_recurrence_spec (i : nat) :
  lobatto_recurrence i
  = cast (lobatto_offdiag_spec (cast ((cast 1%Z : double) + cast i)%num)).
Proof. reflexivity. Qed.

(** The matrix after the first [k] iterations of the loop. *)
Lemma lobatto_prefix (N k r c : nat) :
  mat (foldl lobatto_step (msetZero (mresize N N mempty)) (seq 0 k)) r c
  = if decide ((c = r + 1 /\ r = 0 /\ r < k) \/ (r = c + 1 /\ c = 0 /\ c < k))
    then ((cast 1%Z : double) / num_sqrt (cast 5%Z))%num
    else if decide (c = r + 1 /\ r < k) then lobatto_recurrence r
    else if decide (r = c + 1 /\ c < k) then lobatto_recurrence c
    else num_zero.
Proof.
  induction k as [|k IH].
  { simpl. repeat case_decide; (done || lia). }
  rewrite seq_S, foldl_snoc. simpl. unfold lobatto_step at 1.
  destruct (decide (k = 0)); rewrite !mat_mset, IH; clear IH;
    repeat case_decide; subst; try reflexivity; try lia;
    destruct_and?; subst; try reflexivity; try lia.
Qed.

End LobattoFacts.

(** ** The Laguerre pencil *)

Section LaguerreFacts.
Context {real double : Type}.
Context `{Numeric real} `{Numeric double}.
Context `{Cast Z double} `{Cast nat double} `{Cast double real}.

Lemma laguerre_step_dims N (A : Spec1DMatrix real) i :
  mrows (laguerre_step N A i) = mrows A
  /\ mcols (laguerre_step N A i) = mcols A.
Proof. unfold laguerre_step. by case_decide. Qed.

(** The matrix after the first [k] iterations of the loop. *)
Lemma laguerre_prefix (N k r c : nat) :
  mat (foldl (laguerre_step N) (msetZero (mresize N N mempty)) (seq 0 k)) r c
  = if decide (r = c /\ r < k)
    then cast ((cast 2%Z : double) * cast (r + 1)%nat)%num
    else if decide (c = r + 1 /\ r < k /\ r < N - 1)
    then cast (num_sqrt (((cast 1%Z : double) + cast r)
                         * ((cast 2%Z : double) + cast r)))%num
    else if decide (r = c + 1 /\ c < k /\ c < N - 1)
    then cast (num_sqrt (((cast 1%Z : double) + cast c)
                         * ((cast 2%Z : double) + cast c)))%num
    else num_zero.
Proof.
  induction k as [|k IH].
  { simpl. repeat case_decide; (done || lia). }
  rewrite seq_S, foldl_snoc. simpl. unfold laguerre_step at 1.
  destruct (decide (k < N - 1)); rewrite !mat_mset, IH; clear IH;
    repeat case_decide; subst; try reflexivity; try lia;
    destruct_and?; subst; try reflexivity; try lia.
Qed.

End LaguerreFacts.

(** ** The node solvers *)

Section NodeFacts.
Context {real double ldouble : Type}.
Context `{Numeric real} `{Numeric double} `{Numeric ldouble}.
Context `{Cast Z double} `{Cast nat double} `{Cast double real}.
Context `{Cast double ldouble} `{Cast ldouble double}.
Variable GEPd : GEPSolver double.
Variable GEPr : GEPSolver real.

(** The general case of the Lobatto solver, once the eigenvalue solver has
    answered. *)
Lemma lobatto_general (order : nat) (out : Nodes real)
    (lambda : Spec1DMatrix double) :
  3 <= order ->
  let N := order - 1 in
  let rows := kept (lobatto_keep lambda) (seq 0 N) in
  GEPd (lobatto_matrix N) (msetIdentity N) = Some lambda ->
  eigensolveroots_lobatto GEPd order out
  = (true,
     mkNodes (sort_prefix (length rows)
                ((lobatto_quot lambda <$> rows)
                 ++ drop (length rows) (resize N num_zero (node_real out))))
             (Z.of_nat (length rows))).
Proof.
  intros Horder N rows Hgep.
  destruct order as [|[|[|n]]]; try lia.
  unfold eigensolveroots_lobatto. fold N. rewrite Hgep.
  unfold lobatto_pack. rewrite pack_closed; [done|].
  by rewrite length_seq, length_resize.
Qed.

(** The general case of the Laguerre solver, once the eigenvalue solver has
    answered. *)
Lemma laguerre_general (order : nat) (out : Nodes real)
    (lambda : Spec1DMatrix real) :
  2 <= order ->
  let N := order in
  let rows := kept (laguerre_keep lambda) (seq 0 N) in
  GEPr (laguerre_matrix N) (msetIdentity N) = Some lambda ->
  eigensolveroots_laguerre GEPr order out
  = (true,
     mkNodes (sort_prefix (length rows)
                ((laguerre_quot lambda <$> rows)
                 ++ drop (length rows) (resize N num_zero (node_real out))))
             (Z.of_nat (length rows))).
Proof.
  intros Horder N rows Hgep.
  destruct order as [|[|n]]; try lia.
  unfold eigensolveroots_laguerre. fold N. rewrite Hgep.
  unfold laguerre_pack. rewrite pack_closed; [done|].
  by rewrite length_seq, length_resize.
Qed.

(** What a packed and sorted vector holds. *)
Lemma packed_vector (quots v : list real) (n : nat) :
  n = length quots -> n <= length v ->
  let w := sort_prefix n (quots ++ drop n v) in
  length w = length v
  /\ take n w = std_sort quots
  /\ drop n w = drop n v.
Proof.
  intros -> Hn w. unfold w.
  rewrite length_sort_prefix, take_sort_prefix, drop_sort_prefix.
  rewrite take_app_length, drop_app_length, length_app, length_drop.
  split; [lia|done].
Qed.

(** What the general case of the Lobatto solver returns. *)
Lemma lobatto_packed (order : nat) (out : Nodes real)
    (lambda : Spec1DMatrix double) :
  3 <= order ->
  let N := order - 1 in
  let rows := kept (lobatto_keep lambda) (seq 0 N) in
  let res := eigensolveroots_lobatto GEPd order out in
  GEPd (lobatto_matrix N) (msetIdentity N) = Some lambda ->
  res.1 = true
  /\ length (node_real res.2) = N
  /\ node_nreal res.2 = Z.of_nat (length rows)
  /\ length rows <= N
  /\ take (length rows) (node_real res.2)
     = std_sort (lobatto_quot lambda <$> rows)
  /\ drop (length rows) (node_real res.2)
     = drop (length rows) (resize N num_zero (node_real out))
  /\ (forall i, i < N -> lobatto_keep lambda i = false -> length rows < N).
Proof.
  intros Horder N rows res Hgep. unfold res.
  rewrite (lobatto_general order out lambda Horder Hgep). simpl.
  fold N rows.
  pose proof (length_kept (lobatto_keep lambda) (seq 0 N)) as Hk.
  rewrite length_seq in Hk. fold rows in Hk.
  destruct (packed_vector (lobatto_quot lambda <$> rows)
              (resize N num_zero (node_real out)) (length rows))
    as (Hlen & Htake & Hdrop);
    [by rewrite length_fmap|by rewrite length_resize|].
  rewrite length_resize in Hlen.
  repeat split; try done.
  intros i Hi Hdrop'.
  pose proof (kept_dropped_lt (lobatto_keep lambda) (seq 0 N) i) as Hlt.
  rewrite length_seq in Hlt. apply Hlt; [|done].
  apply elem_of_seq. lia.
Qed.

(** What the general case of the Laguerre solver returns. *)
Lemma laguerre_packed (order : nat) (out : Nodes real)
    (lambda : Spec1DMatrix real) :
  2 <= order ->
  let N := order in
  let rows := kept (laguerre_keep lambda) (seq 0 N) in
  let res := eigensolveroots_laguerre GEPr order out in
  GEPr (laguerre_matrix N) (msetIdentity N) = Some lambda ->
  res.1 = true
  /\ length (node_real res.2) = N
  /\ node_nreal res.2 = Z.of_nat (length rows)
  /\ length rows <= N
  /\ take (length rows) (node_real res.2)
     = std_sort (laguerre_quot lambda <$> rows)
  /\ drop (length rows) (node_real res.2)
     = drop (length rows) (resize N num_zero (node_real out))
  /\ (forall i, i < N -> laguerre_keep lambda i = false -> length rows < N).
Proof.
  intros Horder N rows res Hgep. unfold res.
  rewrite (laguerre_general order out lambda Horder Hgep). simpl.
  fold N rows.
  pose proof (length_kept (laguerre_keep lambda) (seq 0 N)) as Hk.
  rewrite length_seq in Hk. fold rows in Hk.
  destruct (packed_vector (laguerre_quot lambda <$> rows)
              (resize N num_zero (node_real out)) (length rows))
    as (Hlen & Htake & Hdrop);
    [by rewrite length_fmap|by rewrite length_resize|].
  rewrite length_resize in Hlen.
  repeat split; try done.
  intros i Hi Hdrop'.
  pose proof (kept_dropped_lt (laguerre_keep lambda) (seq 0 N) i) as Hlt.
  rewrite length_seq in Hlt. apply Hlt; [|done].
  apply elem_of_seq. lia.
Qed.

(** C10: in the general cases, on success [eig_real] has the dimension N of
    the pencil (order - 1 for Lobatto, order for Laguerre), [nreal] is the
    number of rows with a zero imaginary numerator, the first [nreal]
    entries are the sorted quotients of these rows, and the entries from
    [nreal] on are not written: they are what [resize] left there.  A row
    with a nonzero imaginary numerator is dropped and makes [nreal < N]. *)
Theorem node_solvers_drop_complex (order : nat) (out : Nodes real) :
  (forall lambda : Spec1DMatrix double,
     3 <= order ->
     let N := order - 1 in
     let rows := kept (lobatto_keep lambda) (seq 0 N) in
     let res := eigensolveroots_lobatto GEPd order out in
     GEPd (lobatto_matrix N) (msetIdentity N) = Some lambda ->
     res.1 = true
     /\ length (node_real res.2) = N
     /\ node_nreal res.2 = Z.of_nat (length rows)
     /\ length rows <= N
     /\ take (length rows) (node_real res.2)
        = std_sort (lobatto_quot lambda <$> rows)
     /\ drop (length rows) (node_real res.2)
        = drop (length rows) (resize N num_zero (node_real out))
     /\ (forall i, i < N -> lobatto_keep lambda i = false -> length rows < N))
  /\ (forall lambda : Spec1DMatrix real,
     2 <= order ->
     let N := order in
     let rows := kept (laguerre_keep lambda) (seq 0 N) in
     let res := eigensolveroots_laguerre GEPr order out in
     GEPr (laguerre_matrix N) (msetIdentity N) = Some lambda ->
     res.1 = true
     /\ length (node_real res.2) = N
     /\ node_nreal res.2 = Z.of_nat (length rows)
     /\ length rows <= N
     /\ take (length rows) (node_real res.2)
        = std_sort (laguerre_quot lambda <$> rows)
     /\ drop (length rows) (node_real res.2)
        = drop (length rows) (resize N num_zero (node_real out))
     /\ (forall i, i < N -> laguerre_keep lambda i = false -> length rows < N)).
Proof.
  split; intros lambda Horder.
  - by apply lobatto_packed.
  - by apply laguerre_packed.
Qed.

(** C2: the Lobatto solver builds its pencil in [double] whatever the
    caller's type, the eigenvalue solver runs in [double], and each quotient
    is narrowed to the caller's type when it is copied into [eig_real].  The
    Laguerre solver builds its pencil in the caller's type: every entry is
    computed in [double] and narrowed when it is stored in the matrix, and
    the eigenvalue solver and the quotients are in the caller's type. *)
Theorem pencil_precision (order : nat) (out : Nodes real) :
  (3 <= order ->
   let N := order - 1 in
   let A : Spec1DMatrix double := lobatto_matrix N in
   let I : Spec1DMatrix double := msetIdentity N in
   eigensolveroots_lobatto (real:=real) GEPd order out
   = eigensolveroots_lobatto (real:=real) (fun _ _ => GEPd A I) order out
   /\ forall lambda : Spec1DMatrix double,
        GEPd A I = Some lambda ->
        let rows := kept (lobatto_keep lambda) (seq 0 N) in
        take (length rows)
             (node_real (eigensolveroots_lobatto GEPd order out).2)
        = std_sort ((fun i => (cast (mat lambda i 0 / mat lambda i 2)%num
                               : real)) <$> rows))
  /\ (2 <= order ->
   let N := order in
   let A : Spec1DMatrix real := laguerre_matrix N in
   let I : Spec1DMatrix real := msetIdentity N in
   (forall i, i < N ->
      mat A i i = cast ((cast 2%Z : double) * cast (i + 1)%nat)%num)
   /\ (forall i, i < N - 1 ->
      mat A i (i + 1)
      = cast (num_sqrt (((cast 1%Z : double) + cast i)
                        * ((cast 2%Z : double) + cast i)))%num
      /\ mat A (i + 1) i = mat A i (i + 1))
   /\ eigensolveroots_laguerre GEPr order out
      = eigensolveroots_laguerre (fun _ _ => GEPr A I) order out
   /\ forall lambda : Spec1DMatrix real,
        GEPr A I = Some lambda ->
        let rows := kept (laguerre_keep lambda) (seq 0 N) in
        take (length rows)
             (node_real (eigensolveroots_laguerre GEPr order out).2)
        = std_sort ((fun i => (mat lambda i 0 / mat lambda i 2)%num)
                    <$> rows)).
Proof.
  split; intros Horder N A I.
  - split.
    { destruct order as [|[|[|n]]]; try lia. done. }
    intros lambda Hgep rows.
    destruct (lobatto_packed order out lambda Horder Hgep)
      as (_ & _ & _ & _ & Htake & _).
    exact Htake.
  - assert (forall r c, mat A r c = _) as HA
      by (intros r c; apply (laguerre_prefix N N r c)).
    split; [|split; [|split]].
    + intros i Hi. rewrite HA. repeat case_decide; (done || lia).
    + intros i Hi. rewrite !HA.
      split; repeat case_decide; try done; destruct_and?; subst; lia.
    + destruct order as [|[|n]]; try lia. done.
    + intros lambda Hgep rows.
      destruct (laguerre_packed order out lambda Horder Hgep)
        as (_ & _ & _ & _ & Htake & _).
      exact Htake.
Qed.

End NodeFacts.


(** ** The solvers run in IEEE arithmetic *)

Section Runs.
Import IEEE Examples.

(** x^2 - 1: two real roots, returned in ascending order. *)
Example generic_quadratic_run :
  eigensolveroots (double:=binary64) (ldouble:=binary80)
    (GEP_answers quadratic_roots) quadratic no_roots
  = (true, mkRoots [d (-1); d 1] [d 0; d 0] 2).
Proof. by vm_compute. Qed.

(** x^3 - 1: the real root in front, the conjugate pair behind it, the first
    complex row of the table last. *)
Example generic_cubic_run :
  eigensolveroots (double:=binary64) (ldouble:=binary80)
    (GEP_answers cubic_roots) cubic no_roots
  = (true,
     mkRoots [d 1; (d (-1) / d 2)%num; (d (-1) / d 2)%num]
             [d 0; (- num_sqrt (d 3) / d 2)%num; (num_sqrt (d 3) / d 2)%num]
             1).
Proof. by vm_compute. Qed.

Example lobatto_order2_run :
  eigensolveroots_lobatto (double:=binary64) (ldouble:=binary80)
    GEP_fails 2 no_nodes
  = (true, mkNodes [d (-1); d 0; d 1] 3).
Proof. by vm_compute. Qed.

Example laguerre_order1_run :
  eigensolveroots_laguerre (double:=binary64) GEP_fails 1 no_nodes
  = (true, mkNodes [d 2] 1).
Proof. by vm_compute. Qed.

(** Two rows kept and sorted, the third dropped: its slot holds the zero
    [resize] put there. *)
Example lobatto_order4_run :
  eigensolveroots_lobatto (double:=binary64) (ldouble:=binary80)
    (GEP_answers mixed_rows) 4 no_nodes
  = (true, mkNodes [(d (-3) / d 4)%num; (d 3 / d 4)%num; num_zero] 2).
Proof. by vm_compute. Qed.

(** The same on a vector that held four values: the third slot keeps 7.0. *)
Example lobatto_order4_reused_run :
  eigensolveroots_lobatto (double:=binary64) (ldouble:=binary80)
    (GEP_answers mixed_rows) 4 (mkNodes [d 5; d 6; d 7; d 8] 9)
  = (true, mkNodes [(d (-3) / d 4)%num; (d 3 / d 4)%num; d 7] 2).
Proof. by vm_compute. Qed.

(** C1, as the specification has it, fails: when the eigenvalue solver
    fails on x^2 - 1, the function returns false and the empty vectors it
    was given are still empty, not of length 2. *)
Lemma eigensolveroots_failure_not_resized :
  let res :=
    eigensolveroots (double:=binary64) (ldouble:=binary80)
      GEP_fails quadratic no_roots in
  res.1 = false
  /\ order quadratic = 2
  /\ length (eig_real res.2) <> order quadratic
  /\ length (eig_imag res.2) <> order quadratic.
Proof. vm_compute. repeat split; discriminate. Qed.

(** C2, as the specification has it, fails: for a caller that works in
    [float] the Laguerre pencil holds sqrt 2 narrowed to [float], which is
    not the [double] value a pencil built in [double] holds. *)
Lemma laguerre_pencil_caller_type :
  let A32 : Spec1DMatrix binary32 := laguerre_matrix (double:=binary64) 2 in
  let A64 : Spec1DMatrix binary64 := laguerre_matrix (double:=binary64) 2 in
  (cast (mat A32 0 1) : binary64) <> mat A64 0 1.
Proof. vm_compute. discriminate. Qed.

(** x^3 - 1: the first row of the eigenvalue table is complex and is written
    at the tail of both vectors. *)
Lemma classify_row_placed_witness :
  let GEP := GEP_answers cubic_roots in
  let res := eigensolveroots (double:=binary64) (ldouble:=binary80)
               GEP cubic no_roots in
  (GEP (companion_matrix (double:=binary64) (ldouble:=binary80) cubic)
       (msetIdentity (order cubic)) = Some cubic_roots
   /\ 0 < order cubic)
  /\ eig_real res.2 !! 2 = Some (quot_re cubic_roots 0)
  /\ eig_imag res.2 !! 2 = Some (quot_im cubic_roots 0).
Proof.
  intros GEP res.
  assert (0 < order cubic) as Hi by (vm_compute; lia).
  split; [by split|].
  pose proof (classify_row_placed (double:=binary64) (ldouble:=binary80)
                GEP cubic no_roots cubic_roots 0 eq_refl Hi) as [_ Hrow].
  change (is_real_row cubic_roots 0) with false in Hrow.
  destruct Hrow as (_ & _ & _ & _ & Hre & Him). split; assumption.
Defined.

(** Lobatto order 4 and Laguerre order 3 on a table whose last row is
    complex: two of the three slots are written. *)
Lemma node_solvers_drop_complex_witness :
  let GEP := GEP_answers mixed_rows in
  let lob := eigensolveroots_lobatto (double:=binary64) (ldouble:=binary80)
               GEP 4 no_nodes in
  let lag := eigensolveroots_laguerre (double:=binary64) GEP 3 no_nodes in
  (3 <= 4 /\ 2 <= 3)
  /\ (lob.1 = true /\ length (node_real lob.2) = 3 /\ node_nreal lob.2 = 2%Z)
  /\ (lag.1 = true /\ length (node_real lag.2) = 3 /\ node_nreal lag.2 = 2%Z).
Proof.
  intros GEP lob lag.
  assert (3 <= 4) as H4 by lia. assert (2 <= 3) as H3 by lia.
  split; [by split|].
  destruct (node_solvers_drop_complex (real:=binary64) (double:=binary64)
              (ldouble:=binary80) GEP GEP 4 no_nodes) as [Hlob _].
  destruct (node_solvers_drop_complex (real:=binary64) (double:=binary64)
              (ldouble:=binary80) GEP GEP 3 no_nodes) as [_ Hlag].
  destruct (Hlob mixed_rows H4 eq_refl) as (Hok & Hlen & Hn & _).
  destruct (Hlag mixed_rows H3 eq_refl) as (Hok' & Hlen' & Hn' & _).
  repeat split; assumption.
Defined.

(** Lobatto order 4 in [double], Laguerre order 3 for a caller in [float]. *)
Lemma pencil_precision_witness :
  let A32 : Spec1DMatrix binary32 := laguerre_matrix (double:=binary64) 3 in
  (3 <= 4 /\ 2 <= 3)
  /\ eigensolveroots_lobatto (double:=binary64) (ldouble:=binary80)
       GEP_fails 4 no_nodes
     = eigensolveroots_lobatto (double:=binary64) (ldouble:=binary80)
         (fun _ _ => None) 4 no_nodes
  /\ mat A32 0 0 = cast (d 2 * cast 1%nat)%num.
Proof.
  intros A32.
  assert (3 <= 4) as H4 by lia. assert (2 <= 3) as H3 by lia.
  split; [by split|].
  destruct (pencil_precision (real:=binary64) (double:=binary64)
              (ldouble:=binary80) GEP_fails GEP_fails 4 no_nodes)
    as [Hlob _].
  destruct (pencil_precision (real:=binary32) (double:=binary64)
              (ldouble:=binary80) GEP_fails GEP_fails 3 (mkNodes [] 0))
    as [_ Hlag].
  destruct (Hlob H4) as [Hcall _]. destruct (Hlag H3) as (Hdiag & _).
  split; [exact Hcall|]. exact (Hdiag 0 ltac:(lia)).
Defined.

End Runs.

(** * Further properties of the three solvers *)

Lemma foldl_ext_in {A B} (f g : A -> B -> A) (a : A) (l : list B) :
  (forall b x, x ∈ l -> f b x = g b x) -> foldl f a l = foldl g a l.
Proof.
  revert a. induction l as [|x l IH]; intros a Hfg; simpl; [done|].
  rewrite Hfg by left. apply IH. intros b y Hy. apply Hfg. by right.
Qed.

Lemma sort_prefix_app {T} `{Numeric T} (n : nat) (A B : list T) :
  n = length A -> sort_prefix n (A ++ B) = std_sort A ++ B.
Proof.
  intros ->. unfold sort_prefix. by rewrite take_app_length, drop_app_length.
Qed.

Lemma fmap_const_replicate {A B} (c : B) (l : list A) :
  (fun _ => c) <$> l = replicate (length l) c.
Proof. induction l as [|x l IH]; [done|]. by rewrite fmap_cons, IH. Qed.

Section GenericOutput.
Context {real double ldouble : Type}.
Context `{Numeric real} `{Numeric ldouble}.
Context `{Cast Z double} `{Cast double real}.
Context `{Cast real ldouble} `{Cast ldouble real}.

(** What a successful call of the generic solver returns. *)
Lemma eigensolveroots_closed (GEP : GEPSolver real) (poly : Polynomial real)
    (out : Roots real) (lambda : Spec1DMatrix real) :
  let N := order poly in
  let Rs := real_rows lambda (seq 0 N) in
  let Cs := complex_rows lambda (seq 0 N) in
  GEP (companion_matrix poly) (msetIdentity N) = Some lambda ->
  eigensolveroots (ldouble:=ldouble) GEP poly out
  = (true,
     mkRoots (std_sort (quot_re lambda <$> Rs)
                ++ reverse (quot_re lambda <$> Cs))
             (((fun _ => cast (cast 0%Z : double)) <$> Rs)
                ++ reverse (quot_im lambda <$> Cs))
             (Z.of_nat (length Rs))).
Proof.
  intros N Rs Cs Hgep.
  rewrite (eigensolveroots_success GEP poly out lambda Hgep). fold N.
  destruct (classify_final N lambda out) as (-> & _ & -> & ->).
  fold Rs Cs. by rewrite sort_prefix_app by (by rewrite length_fmap).
Qed.

(** X1: on success the generic solver returns [nreal] = the number of rows
    with a zero imaginary numerator; [eig_real] holds the quotients of these
    rows, sorted, and then the real parts of the other rows in the reverse
    of the order of the rows; [eig_imag] holds [nreal] zeros and then the
    imaginary parts of the other rows in the same reverse order.  The sorted
    prefix is a permutation of the quotients found: no root is lost. *)
Theorem eigensolveroots_output (GEP : GEPSolver real)
    (poly : Polynomial real) (out : Roots real)
    (lambda : Spec1DMatrix real) :
  let N := order poly in
  let Rs := real_rows lambda (seq 0 N) in
  let Cs := complex_rows lambda (seq 0 N) in
  let res := eigensolveroots (ldouble:=ldouble) GEP poly out in
  GEP (companion_matrix poly) (msetIdentity N) = Some lambda ->
  res.1 = true
  /\ nreal res.2 = Z.of_nat (length Rs)
  /\ take (length Rs) (eig_real res.2) ≡ₚ quot_re lambda <$> Rs
  /\ drop (length Rs) (eig_real res.2) = reverse (quot_re lambda <$> Cs)
  /\ take (length Rs) (eig_imag res.2)
     = replicate (length Rs) (cast (cast 0%Z : double))
  /\ drop (length Rs) (eig_imag res.2) = reverse (quot_im lambda <$> Cs).
Proof.
  intros N Rs Cs res Hgep. unfold res.
  rewrite (eigensolveroots_closed GEP poly out lambda Hgep). simpl.
  fold N Rs Cs.
  split; [done|]. split; [done|]. split; [|split; [|split]].
  - rewrite take_app_length'; [apply std_sort_perm|].
    by rewrite length_std_sort, length_fmap.
  - apply drop_app_length'. by rewrite length_std_sort, length_fmap.
  - rewrite take_app_length' by (by rewrite length_fmap).
    apply fmap_const_replicate.
  - apply drop_app_length'. by rewrite length_fmap.
Qed.

(** X2: on success the result of the generic solver does not depend on what
    [eig_real], [eig_imag] and [nreal] held on entry; in particular a second
    call on the vectors returned gives the same result. *)
Theorem eigensolveroots_entry_independent (GEP : GEPSolver real)
    (poly : Polynomial real) (out1 out2 : Roots real) :
  let N := order poly in
  is_Some (GEP (companion_matrix (ldouble:=ldouble) poly) (msetIdentity N)) ->
  eigensolveroots (ldouble:=ldouble) GEP poly out1
  = eigensolveroots (ldouble:=ldouble) GEP poly out2
  /\ eigensolveroots (ldouble:=ldouble) GEP poly
       (eigensolveroots (ldouble:=ldouble) GEP poly out1).2
     = eigensolveroots (ldouble:=ldouble) GEP poly out1.
Proof.
  intros N [lambda Hgep].
  by rewrite !(eigensolveroots_closed GEP poly _ lambda Hgep).
Qed.

(** X9: for a polynomial of order 0 a successful call returns empty vectors
    and [nreal = 0], whatever the vectors held and whatever the table
    holds. *)
Theorem eigensolveroots_order_zero (GEP : GEPSolver real)
    (poly : Polynomial real) (out : Roots real) :
  order poly = 0 ->
  is_Some (GEP (companion_matrix (ldouble:=ldouble) poly) (msetIdentity 0)) ->
  eigensolveroots (ldouble:=ldouble) GEP poly out = (true, mkRoots [] [] 0).
Proof.
  intros Horder [lambda Hgep]. rewrite <-Horder in Hgep.
  rewrite (eigensolveroots_closed GEP poly out lambda Hgep).
  by rewrite Horder.
Qed.

(** X10: the companion matrix is made of the coefficients [0 .. N] alone:
    two polynomials of the same order N that agree on them give matrices of
    the same dimensions and entries. *)
Theorem companion_reads_coefficients (p q : Polynomial real) :
  order p = order q ->
  (forall i, i <= order p -> coeff p i = coeff q i) ->
  let A := companion_matrix (double:=double) (ldouble:=ldouble) p in
  let B := companion_matrix (double:=double) (ldouble:=ldouble) q in
  mrows A = mrows B /\ mcols A = mcols B
  /\ forall r c, mat A r c = mat B r c.
Proof.
  intros Horder Hco A B. unfold A, B, companion_matrix.
  split; [|split].
  - rewrite !mrows_foldl by (intros; apply companion_step_dims).
    simpl. by rewrite Horder.
  - rewrite !mcols_foldl by (intros; apply companion_step_dims).
    simpl. by rewrite Horder.
  - intros r c. rewrite !companion_prefix, <-Horder.
    repeat case_decide; try done. destruct_and?.
    by rewrite <-!Hco by lia.
Qed.

Lemma classify_row_agree (N : nat) (l1 l2 : Spec1DMatrix real) st i :
  (forall k, k < 3 -> mat l1 i k = mat l2 i k) ->
  classify_row N l1 st i = classify_row N l2 st i.
Proof.
  intros Hag. unfold classify_row, is_real_row.
  by rewrite (Hag 0), (Hag 1), (Hag 2) by lia.
Qed.

End GenericOutput.

Section Frame.
Context {real double ldouble : Type}.
Context `{Numeric real} `{Numeric double} `{Numeric ldouble}.
Context `{Cast Z double} `{Cast nat double} `{Cast double real}.
Context `{Cast double ldouble} `{Cast ldouble double}.
Context `{Cast real ldouble} `{Cast ldouble real}.

Lemma pack_agree (keep1 keep2 : nat -> bool) (quot1 quot2 : nat -> real)
    (v : list real) (N : nat) :
  (forall i, i < N -> keep1 i = keep2 i /\ quot1 i = quot2 i) ->
  foldl (pack_row keep1 quot1) (v, 0) (seq 0 N)
  = foldl (pack_row keep2 quot2) (v, 0) (seq 0 N).
Proof.
  intros Hag. apply foldl_ext_in. intros st i Hi.
  apply elem_of_seq in Hi. destruct (Hag i) as [Hk Hq]; [lia|].
  unfold pack_row. by rewrite Hk, Hq.
Qed.

(** X3: the three solvers read the eigenvalue table only in its rows
    [0 .. N-1] and its columns 0, 1 and 2: two answers of the eigenvalue
    solver that agree there give the same result. *)
Theorem solvers_read_table_rows :
  (forall (GEP1 GEP2 : GEPSolver real) (poly : Polynomial real)
          (out : Roots real) (l1 l2 : Spec1DMatrix real),
     let N := order poly in
     GEP1 (companion_matrix (ldouble:=ldouble) poly) (msetIdentity N)
       = Some l1 ->
     GEP2 (companion_matrix (ldouble:=ldouble) poly) (msetIdentity N)
       = Some l2 ->
     (forall i k, i < N -> k < 3 -> mat l1 i k = mat l2 i k) ->
     eigensolveroots (ldouble:=ldouble) GEP1 poly out
     = eigensolveroots (ldouble:=ldouble) GEP2 poly out)
  /\ (forall (GEP1 GEP2 : GEPSolver double) (order : nat) (out : Nodes real)
          (l1 l2 : Spec1DMatrix double),
     let N := order - 1 in
     3 <= order ->
     GEP1 (lobatto_matrix (ldouble:=ldouble) N) (msetIdentity N) = Some l1 ->
     GEP2 (lobatto_matrix (ldouble:=ldouble) N) (msetIdentity N) = Some l2 ->
     (forall i k, i < N -> k < 3 -> mat l1 i k = mat l2 i k) ->
     eigensolveroots_lobatto (ldouble:=ldouble) GEP1 order out
     = eigensolveroots_lobatto (ldouble:=ldouble) GEP2 order out)
  /\ (forall (GEP1 GEP2 : GEPSolver real) (order : nat) (out : Nodes real)
          (l1 l2 : Spec1DMatrix real),
     let N := order in
     2 <= order ->
     GEP1 (laguerre_matrix (double:=double) N) (msetIdentity N) = Some l1 ->
     GEP2 (laguerre_matrix (double:=double) N) (msetIdentity N) = Some l2 ->
     (forall i k, i < N -> k < 3 -> mat l1 i k = mat l2 i k) ->
     eigensolveroots_laguerre (double:=double) GEP1 order out
     = eigensolveroots_laguerre (double:=double) GEP2 order out).
Proof.
  split; [|split].
  - intros GEP1 GEP2 poly out l1 l2 N Hg1 Hg2 Hag.
    unfold eigensolveroots. fold N. rewrite Hg1, Hg2.
    assert (classify N l1 out (seq 0 N) = classify N l2 out (seq 0 N)) as ->;
      [|done].
    apply foldl_ext_in. intros st i Hi. apply elem_of_seq in Hi.
    apply classify_row_agree. intros k Hk. apply Hag; lia.
  - intros GEP1 GEP2 order out l1 l2 N Horder Hg1 Hg2 Hag.
    destruct order as [|[|[|n]]]; try lia.
    unfold eigensolveroots_lobatto. fold N. rewrite Hg1, Hg2.
    assert (lobatto_pack N l1 (node_real out)
            = lobatto_pack N l2 (node_real out)) as ->; [|done].
    apply pack_agree. intros i Hi.
    unfold lobatto_keep, lobatto_quot.
    by rewrite (Hag i 0), (Hag i 1), (Hag i 2) by lia.
  - intros GEP1 GEP2 order out l1 l2 N Horder Hg1 Hg2 Hag.
    destruct order as [|[|n]]; try lia.
    unfold eigensolveroots_laguerre. fold N. rewrite Hg1, Hg2.
    assert (laguerre_pack N l1 (node_real out)
            = laguerre_pack N l2 (node_real out)) as ->; [|done].
    apply pack_agree. intros i Hi.
    unfold laguerre_keep, laguerre_quot.
    by rewrite (Hag i 0), (Hag i 1), (Hag i 2) by lia.
Qed.

End Frame.

Lemma kept_all (keep : nat -> bool) (rows : list nat) :
  (forall i, i ∈ rows -> keep i = true) -> kept keep rows = rows.
Proof.
  intros Hall. unfold kept. induction rows as [|i rows IH]; [done|].
  rewrite filter_cons_True by (apply Hall; left).
  f_equal. apply IH. intros j Hj. apply Hall. by right.
Qed.

Section NodeExtras.
Context {real double ldouble : Type}.
Context `{Numeric real} `{Numeric double} `{Numeric ldouble}.
Context `{Cast Z double} `{Cast nat double} `{Cast double real}.
Context `{Cast double ldouble} `{Cast ldouble double}.
Variable GEPd : GEPSolver double.
Variable GEPr : GEPSolver real.

(** X5: the Lobatto solver fails exactly when its order is at least 3 and the
    eigenvalue solver fails, the Laguerre solver exactly when its order is at
    least 2 and the eigenvalue solver fails; a failed call leaves [eig_real]
    and [nreal] as the caller passed them, and below these orders the
    eigenvalue solver has no part in the result. *)
Theorem node_solvers_failure (order : nat) (out : Nodes real) :
  (let N := order - 1 in
   let res := eigensolveroots_lobatto (ldouble:=ldouble) GEPd order out in
   (res.1 = false
    <-> 3 <= order /\ GEPd (lobatto_matrix N) (msetIdentity N) = None)
   /\ (res.1 = false -> res.2 = out)
   /\ (order <= 2 -> forall GEP' : GEPSolver double,
         eigensolveroots_lobatto (ldouble:=ldouble) GEP' order out = res))
  /\ (let N := order in
   let res := eigensolveroots_laguerre (double:=double) GEPr order out in
   (res.1 = false
    <-> 2 <= order /\ GEPr (laguerre_matrix N) (msetIdentity N) = None)
   /\ (res.1 = false -> res.2 = out)
   /\ (order <= 1 -> forall GEP' : GEPSolver real,
         eigensolveroots_laguerre (double:=double) GEP' order out = res)).
Proof.
  split.
  - intros N res. unfold res, N. clear res N.
    destruct order as [|[|[|n]]];
      try (split; [split; [done|intros [? _]; lia]|split; [done|done]]).
    unfold eigensolveroots_lobatto.
    destruct (GEPd _ _) as [lambda|]; simpl.
    + split; [split; [done|by intros [_ ?]]|]. split; [done|lia].
    + split; [split; [intros _; split; [lia|done]|done]|].
      split; [done|lia].
  - intros N res. unfold res, N. clear res N.
    destruct order as [|[|n]];
      try (split; [split; [done|intros [? _]; lia]|split; [done|done]]).
    unfold eigensolveroots_laguerre.
    destruct (GEPr _ _) as [lambda|]; simpl.
    + split; [split; [done|by intros [_ ?]]|]. split; [done|lia].
    + split; [split; [intros _; split; [lia|done]|done]|].
      split; [done|lia].
Qed.

End NodeExtras.

Section Composition.
Context {real double ldouble : Type}.
Context `{Numeric real} `{Numeric double} `{Numeric ldouble}.
Context `{Cast Z double} `{Cast nat double} `{Cast double real}.
Context `{Cast double ldouble} `{Cast ldouble double}.
Context `{Cast real ldouble} `{Cast ldouble real}.

(** X6: after every successful call of any of the three solvers, whatever
    the vectors held on entry, [0 <= nreal <= eig_real.size()]: the prefix
    [eig_real[0..nreal)] is within the vector.  For the generic solver
    [eig_imag] has the size of [eig_real]. *)
Theorem nreal_within_bounds :
  (forall (GEP : GEPSolver real) (poly : Polynomial real) (out : Roots real),
     let res := eigensolveroots (ldouble:=ldouble) GEP poly out in
     res.1 = true ->
     (0 <= nreal res.2 <= Z.of_nat (length (eig_real res.2)))%Z
     /\ length (eig_imag res.2) = length (eig_real res.2))
  /\ (forall (GEP : GEPSolver double) (order : nat) (out : Nodes real),
     let res := eigensolveroots_lobatto (ldouble:=ldouble) GEP order out in
     res.1 = true ->
     (0 <= node_nreal res.2 <= Z.of_nat (length (node_real res.2)))%Z)
  /\ (forall (GEP : GEPSolver real) (order : nat) (out : Nodes real),
     let res := eigensolveroots_laguerre (double:=double) GEP order out in
     res.1 = true ->
     (0 <= node_nreal res.2 <= Z.of_nat (length (node_real res.2)))%Z).
Proof.
  split; [|split].
  - intros GEP poly out res Hok. unfold res in *.
    destruct (GEP (companion_matrix poly) (msetIdentity (order poly)))
      as [lambda|] eqn:Hgep.
    + rewrite (eigensolveroots_closed GEP poly out lambda Hgep). simpl.
      pose proof (rows_split_length lambda (seq 0 (order poly))) as Hsplit.
      rewrite !length_app, length_std_sort, !length_reverse, !length_fmap.
      lia.
    + exfalso. revert Hok. unfold eigensolveroots. by rewrite Hgep.
  - intros GEP order out res Hok. unfold res in *.
    destruct (decide (3 <= order)) as [Horder|Horder].
    + destruct (GEP (lobatto_matrix (order - 1)) (msetIdentity (order - 1)))
        as [lambda|] eqn:Hgep.
      * destruct (lobatto_packed GEP order out lambda Horder Hgep)
          as (_ & Hlen & Hn & Hle & _).
        rewrite Hlen, Hn. lia.
      * exfalso. revert Hok. destruct order as [|[|[|n]]]; try lia.
        unfold eigensolveroots_lobatto. by rewrite Hgep.
    + destruct order as [|[|[|n]]]; try lia; simpl;
        rewrite !length_app; simpl; lia.
  - intros GEP order out res Hok. unfold res in *.
    destruct (decide (2 <= order)) as [Horder|Horder].
    + destruct (GEP (laguerre_matrix order) (msetIdentity order))
        as [lambda|] eqn:Hgep.
      * destruct (laguerre_packed GEP order out lambda Horder Hgep)
          as (_ & Hlen & Hn & Hle & _).
        rewrite Hlen, Hn. lia.
      * exfalso. revert Hok. destruct order as [|[|n]]; try lia.
        unfold eigensolveroots_laguerre. by rewrite Hgep.
    + destruct order as [|[|n]]; try lia; simpl;
        rewrite ?length_app; simpl; lia.
Qed.

Lemma lobatto_fails (GEP : GEPSolver double) (order : nat)
    (out : Nodes real) :
  3 <= order ->
  GEP (lobatto_matrix (ldouble:=ldouble) (order - 1))
      (msetIdentity (order - 1)) = None ->
  eigensolveroots_lobatto (ldouble:=ldouble) GEP order out = (false, out).
Proof.
  intros Horder Hgep. destruct order as [|[|[|n]]]; try lia.
  unfold eigensolveroots_lobatto. cbv zeta. by rewrite Hgep.
Qed.

Lemma laguerre_fails (GEP : GEPSolver real) (order : nat)
    (out : Nodes real) :
  2 <= order ->
  GEP (laguerre_matrix (double:=double) order) (msetIdentity order) = None ->
  eigensolveroots_laguerre (double:=double) GEP order out = (false, out).
Proof.
  intros Horder Hgep. destruct order as [|[|n]]; try lia.
  unfold eigensolveroots_laguerre. cbv zeta. by rewrite Hgep.
Qed.

(** The general case of a node solver, run on the vector it returned. *)
Lemma packed_again (quots v : list real) (n N : nat) :
  n = length quots -> n <= N -> length v = N ->
  let w := sort_prefix n (quots ++ drop n v) in
  sort_prefix n (quots ++ drop n (resize N num_zero w)) = w.
Proof.
  intros Hn Hle Hv w.
  destruct (packed_vector quots v n Hn) as (Hlen & _ & Hdrop); [lia|].
  fold w in Hlen, Hdrop.
  rewrite resize_all_alt by lia. by rewrite Hdrop.
Qed.

(** X7: in its general case a node solver can be called again on what it
    returned and returns the same: for order >= 3 (Lobatto) and order >= 2
    (Laguerre) a second call on the [eig_real] and [nreal] of the first gives
    the result of the first.  The shortcuts are not so: a second call appends
    the nodes once more, and the vector grows by order + 1 at every call of
    the Lobatto solver of order <= 2. *)
Theorem node_solvers_called_again :
  (forall (GEP : GEPSolver double) (order : nat) (out : Nodes real),
     let res := eigensolveroots_lobatto (ldouble:=ldouble) GEP order out in
     let res' := eigensolveroots_lobatto (ldouble:=ldouble) GEP order res.2 in
     (3 <= order -> res' = res)
     /\ (order <= 2 ->
         length (node_real res'.2) = length (node_real out) + 2 * (order + 1)
         /\ node_nreal res'.2 = Z.of_nat (order + 1)))
  /\ (forall (GEP : GEPSolver real) (order : nat) (out : Nodes real),
     let res := eigensolveroots_laguerre (double:=double) GEP order out in
     let res' := eigensolveroots_laguerre (double:=double) GEP order res.2 in
     (2 <= order -> res' = res)
     /\ (order <= 1 ->
         length (node_real res'.2) = length (node_real out) + 2 * order
         /\ node_nreal res'.2 = Z.of_nat order)).
Proof.
  split.
  - intros GEP order out res res'. split.
    + intros Horder. unfold res', res.
      destruct (GEP (lobatto_matrix (order - 1)) (msetIdentity (order - 1)))
        as [lambda|] eqn:Hgep.
      * rewrite (lobatto_general GEP order out lambda Horder Hgep).
        rewrite (lobatto_general GEP order _ lambda Horder Hgep). simpl.
        f_equal. f_equal.
        pose proof (length_kept (lobatto_keep lambda) (seq 0 (order - 1)))
          as Hk. rewrite length_seq in Hk.
        apply packed_again;
          [by rewrite length_fmap|done|by rewrite length_resize].
      * by rewrite !(lobatto_fails GEP order _ Horder Hgep).
    + intros Horder. unfold res', res.
      destruct order as [|[|[|n]]]; try lia; simpl;
        rewrite !length_app; simpl; split; (done || lia).
  - intros GEP order out res res'. split.
    + intros Horder. unfold res', res.
      destruct (GEP (laguerre_matrix order) (msetIdentity order))
        as [lambda|] eqn:Hgep.
      * rewrite (laguerre_general GEP order out lambda Horder Hgep).
        rewrite (laguerre_general GEP order _ lambda Horder Hgep). simpl.
        f_equal. f_equal.
        pose proof (length_kept (laguerre_keep lambda) (seq 0 order))
          as Hk. rewrite length_seq in Hk.
        apply packed_again;
          [by rewrite length_fmap|done|by rewrite length_resize].
      * by rewrite !(laguerre_fails GEP order _ Horder Hgep).
    + intros Horder. unfold res', res.
      destruct order as [|[|n]]; try lia; simpl;
        rewrite ?length_app; simpl; split; (done || lia).
Qed.

(** X8: when every row of the table has a zero imaginary numerator, as for
    the symmetric pencils of the node solvers, the general case returns
    [nreal = N] and [eig_real] is the sorted quotients of all the rows:
    nothing of what the vector held on entry is left in it. *)
Theorem node_solvers_all_real :
  (forall (GEP : GEPSolver double) (order : nat) (out : Nodes real)
          (lambda : Spec1DMatrix double),
     let N := order - 1 in
     3 <= order ->
     GEP (lobatto_matrix (ldouble:=ldouble) N) (msetIdentity N)
       = Some lambda ->
     (forall i, i < N -> lobatto_keep lambda i = true) ->
     eigensolveroots_lobatto (ldouble:=ldouble) GEP order out
     = (true, mkNodes (std_sort (lobatto_quot lambda <$> seq 0 N))
                      (Z.of_nat N)))
  /\ (forall (GEP : GEPSolver real) (order : nat) (out : Nodes real)
          (lambda : Spec1DMatrix real),
     let N := order in
     2 <= order ->
     GEP (laguerre_matrix (double:=double) N) (msetIdentity N)
       = Some lambda ->
     (forall i, i < N -> laguerre_keep (double:=double) lambda i = true) ->
     eigensolveroots_laguerre (double:=double) GEP order out
     = (true, mkNodes (std_sort (laguerre_quot lambda <$> seq 0 N))
                      (Z.of_nat N))).
Proof.
  split.
  - intros GEP order out lambda N Horder Hgep Hall.
    rewrite (lobatto_general GEP order out lambda Horder Hgep). fold N.
    rewrite kept_all by (intros i Hi%elem_of_seq; apply Hall; lia).
    rewrite length_seq, drop_ge, app_nil_r by (by rewrite length_resize).
    f_equal. f_equal. unfold sort_prefix.
    rewrite take_ge, drop_ge by (by rewrite length_fmap, length_seq).
    by rewrite app_nil_r.
  - intros GEP order out lambda N Horder Hgep Hall.
    rewrite (laguerre_general GEP order out lambda Horder Hgep). fold N.
    rewrite kept_all by (intros i Hi%elem_of_seq; apply Hall; lia).
    rewrite length_seq, drop_ge, app_nil_r by (by rewrite length_resize).
    f_equal. f_equal. unfold sort_prefix.
    rewrite take_ge, drop_ge by (by rewrite length_fmap, length_seq).
    by rewrite app_nil_r.
Qed.

End Composition.

(** ** Further runs in IEEE arithmetic *)

Section MoreRuns.
Import IEEE Examples.

(** x^3 - 1: one sorted real root, the conjugate pair behind it. *)
Lemma eigensolveroots_output_witness :
  let GEP := GEP_answers cubic_roots in
  let res := eigensolveroots (double:=binary64) (ldouble:=binary80)
               GEP cubic no_roots in
  GEP (companion_matrix (double:=binary64) (ldouble:=binary80) cubic)
      (msetIdentity (order cubic)) = Some cubic_roots
  /\ nreal res.2 = 1%Z
  /\ drop 1 (eig_real res.2) = [(d (-1) / d 2)%num; (d (-1) / d 2)%num].
Proof.
  intros GEP res. split; [reflexivity|].
  destruct (eigensolveroots_output (double:=binary64) (ldouble:=binary80)
              GEP cubic no_roots cubic_roots eq_refl)
    as (_ & Hn & _ & Hdrop & _).
  split; [exact Hn|]. exact Hdrop.
Defined.

(** x^2 - 1 on empty vectors and on vectors that held values. *)
Lemma eigensolveroots_entry_independent_witness :
  let GEP := GEP_answers quadratic_roots in
  is_Some (GEP (companion_matrix (double:=binary64) (ldouble:=binary80)
                  quadratic) (msetIdentity (order quadratic)))
  /\ eigensolveroots (double:=binary64) (ldouble:=binary80)
       GEP quadratic no_roots
     = eigensolveroots (double:=binary64) (ldouble:=binary80)
         GEP quadratic (mkRoots [d 7; d 8; d 9] [d 5] 4).
Proof.
  intros GEP.
  assert (is_Some (GEP (companion_matrix (double:=binary64)
                          (ldouble:=binary80) quadratic)
                       (msetIdentity (order quadratic)))) as Hsome
    by (by eexists).
  split; [exact Hsome|].
  exact (proj1 (eigensolveroots_entry_independent (double:=binary64)
                  (ldouble:=binary80) GEP quadratic no_roots
                  (mkRoots [d 7; d 8; d 9] [d 5] 4) Hsome)).
Defined.

(** The constant polynomial 5 on vectors that held values. *)
Lemma eigensolveroots_order_zero_witness :
  let GEP : GEPSolver binary64 := GEP_answers (table []) in
  let poly := poly_of [d 5] in
  (order poly = 0
   /\ is_Some (GEP (companion_matrix (double:=binary64) (ldouble:=binary80)
                      poly) (msetIdentity 0)))
  /\ eigensolveroots (double:=binary64) (ldouble:=binary80)
       GEP poly (mkRoots [d 7; d 8] [d 9] 3)
     = (true, mkRoots [] [] 0).
Proof.
  intros GEP poly.
  assert (is_Some (GEP (companion_matrix (double:=binary64)
                          (ldouble:=binary80) poly) (msetIdentity 0)))
    as Hsome by (by eexists).
  split; [by split|].
  exact (eigensolveroots_order_zero (double:=binary64) (ldouble:=binary80)
           GEP poly (mkRoots [d 7; d 8] [d 9] 3) eq_refl Hsome).
Defined.

(** x^2 - 1 and the polynomial with the same three coefficients and a stray
    value at index 3. *)
Lemma companion_reads_coefficients_witness :
  let q : Polynomial binary64 :=
    mkPoly 2 (fun i => default (d 9) ([d (-1); d 0; d 1] !! i)) in
  (order quadratic = order q
   /\ forall i, i <= order quadratic -> coeff quadratic i = coeff q i)
  /\ forall r c,
       mat (companion_matrix (double:=binary64) (ldouble:=binary80)
              quadratic) r c
       = mat (companion_matrix (double:=binary64) (ldouble:=binary80) q) r c.
Proof.
  intros q.
  assert (forall i, i <= order quadratic -> coeff quadratic i = coeff q i)
    as Hco.
  { intros [|[|[|i]]] Hi; try reflexivity. exfalso. simpl in Hi. lia. }
  split; [by split|].
  exact (proj2 (proj2 (companion_reads_coefficients (double:=binary64)
                         (ldouble:=binary80) quadratic q eq_refl Hco))).
Defined.

(** Two tables that agree on their first two rows; the second has a third
    row. *)
Lemma solvers_read_table_rows_witness :
  let l2 : Spec1DMatrix binary64 :=
    table [(d 1, d 0, d 1); (d (-1), d 0, d 1); (d 7, d 7, d 7)] in
  (forall i k, i < 2 -> k < 3 -> mat quadratic_roots i k = mat l2 i k)
  /\ eigensolveroots (double:=binary64) (ldouble:=binary80)
       (GEP_answers quadratic_roots) quadratic no_roots
     = eigensolveroots (double:=binary64) (ldouble:=binary80)
         (GEP_answers l2) quadratic no_roots
  /\ eigensolveroots_lobatto (double:=binary64) (ldouble:=binary80)
       (GEP_answers quadratic_roots) 3 no_nodes
     = eigensolveroots_lobatto (double:=binary64) (ldouble:=binary80)
         (GEP_answers l2) 3 no_nodes
  /\ eigensolveroots_laguerre (double:=binary64)
       (GEP_answers quadratic_roots) 2 no_nodes
     = eigensolveroots_laguerre (double:=binary64)
         (GEP_answers l2) 2 no_nodes.
Proof.
  intros l2.
  assert (forall i k, i < 2 -> k < 3 -> mat quadratic_roots i k = mat l2 i k)
    as Hag.
  { intros [|[|i]] [|[|[|k]]] Hi Hk; try reflexivity; lia. }
  split; [exact Hag|].
  destruct (solvers_read_table_rows (real:=binary64) (double:=binary64)
              (ldouble:=binary80)) as (Hgen & Hlob & Hlag).
  split; [|split].
  - exact (Hgen (GEP_answers quadratic_roots) (GEP_answers l2) quadratic
             no_roots quadratic_roots l2 eq_refl eq_refl Hag).
  - assert (3 <= 3) as H3 by lia.
    exact (Hlob (GEP_answers quadratic_roots) (GEP_answers l2) 3 no_nodes
             quadratic_roots l2 H3 eq_refl eq_refl Hag).
  - assert (2 <= 2) as H2 by lia.
    exact (Hlag (GEP_answers quadratic_roots) (GEP_answers l2) 2 no_nodes
             quadratic_roots l2 H2 eq_refl eq_refl Hag).
Defined.

(** Lobatto order 4 and Laguerre order 3 with a solver that fails, on a
    vector that held values. *)
Lemma node_solvers_failure_witness :
  let out := mkNodes [d 7; d 8] 5 in
  eigensolveroots_lobatto (double:=binary64) (ldouble:=binary80)
    GEP_fails 4 out = (false, out)
  /\ eigensolveroots_laguerre (double:=binary64) GEP_fails 3 out
     = (false, out).
Proof.
  intros out.
  destruct (node_solvers_failure (real:=binary64) (double:=binary64)
              (ldouble:=binary80) GEP_fails GEP_fails 4 out)
    as [(Hlob & Hlob' & _) _].
  destruct (node_solvers_failure (real:=binary64) (double:=binary64)
              (ldouble:=binary80) GEP_fails GEP_fails 3 out)
    as [_ (Hlag & Hlag' & _)].
  assert (3 <= 4) as H4 by lia. assert (2 <= 3) as H3 by lia.
  split.
  - apply injective_projections; [apply Hlob; by split|].
    apply Hlob', Hlob. by split.
  - apply injective_projections; [apply Hlag; by split|].
    apply Hlag', Hlag. by split.
Defined.

(** The three solvers on vectors that held values. *)
Lemma nreal_within_bounds_witness :
  let gen := eigensolveroots (double:=binary64) (ldouble:=binary80)
               (GEP_answers cubic_roots) cubic (mkRoots [d 7] [] 9) in
  let lob := eigensolveroots_lobatto (double:=binary64) (ldouble:=binary80)
               GEP_fails 1 (mkNodes [d 7] 9) in
  let lag := eigensolveroots_laguerre (double:=binary64)
               (GEP_answers mixed_rows) 3 (mkNodes [d 7] 9) in
  (gen.1 = true /\ lob.1 = true /\ lag.1 = true)
  /\ (0 <= nreal gen.2 <= Z.of_nat (length (eig_real gen.2)))%Z
  /\ (0 <= node_nreal lob.2 <= Z.of_nat (length (node_real lob.2)))%Z
  /\ (0 <= node_nreal lag.2 <= Z.of_nat (length (node_real lag.2)))%Z.
Proof.
  intros gen lob lag. split; [by repeat split|].
  destruct (nreal_within_bounds (real:=binary64) (double:=binary64)
              (ldouble:=binary80)) as (Hgen & Hlob & Hlag).
  split; [|split].
  - exact (proj1 (Hgen (GEP_answers cubic_roots) cubic
                    (mkRoots [d 7] [] 9) eq_refl)).
  - exact (Hlob GEP_fails 1 (mkNodes [d 7] 9) eq_refl).
  - exact (Hlag (GEP_answers mixed_rows) 3 (mkNodes [d 7] 9) eq_refl).
Defined.

(** Lobatto order 4 called twice, and Lobatto order 1 called twice. *)
Lemma node_solvers_called_again_witness :
  let GEP := GEP_answers mixed_rows in
  let out := mkNodes [d 7; d 8; d 9; d 10] 5 in
  let res := eigensolveroots_lobatto (double:=binary64) (ldouble:=binary80)
               GEP 4 out in
  let one := eigensolveroots_lobatto (double:=binary64) (ldouble:=binary80)
               GEP 1 no_nodes in
  (3 <= 4 /\ 1 <= 2)
  /\ eigensolveroots_lobatto (double:=binary64) (ldouble:=binary80)
       GEP 4 res.2 = res
  /\ length (node_real
               (eigensolveroots_lobatto (double:=binary64)
                  (ldouble:=binary80) GEP 1 one.2).2) = 4.
Proof.
  intros GEP out res one.
  assert (3 <= 4) as H4 by lia. assert (1 <= 2) as H1 by lia.
  split; [by split|].
  destruct (node_solvers_called_again (real:=binary64) (double:=binary64)
              (ldouble:=binary80)) as [Hlob _].
  split.
  - exact (proj1 (Hlob GEP 4 out) H4).
  - exact (proj1 (proj2 (Hlob GEP 1 no_nodes) H1)).
Defined.

(** Lobatto order 3 and Laguerre order 2 on a table of two real rows. *)
Lemma node_solvers_all_real_witness :
  let GEP := GEP_answers quadratic_roots in
  let out := mkNodes [d 7; d 8; d 9] 5 in
  (forall i, i < 2 -> lobatto_keep quadratic_roots i = true)
  /\ eigensolveroots_lobatto (double:=binary64) (ldouble:=binary80)
       GEP 3 out = (true, mkNodes [d (-1); d 1] 2)
  /\ eigensolveroots_laguerre (double:=binary64) GEP 2 out
     = (true, mkNodes [d (-1); d 1] 2).
Proof.
  intros GEP out.
  assert (forall i, i < 2 -> lobatto_keep quadratic_roots i = true) as Hall.
  { intros [|[|i]] Hi; (reflexivity || lia). }
  split; [exact Hall|].
  destruct (node_solvers_all_real (real:=binary64) (double:=binary64)
              (ldouble:=binary80)) as [Hlob Hlag].
  assert (3 <= 3) as H3 by lia. assert (2 <= 2) as H2 by lia.
  split.
  - rewrite (Hlob GEP 3 out quadratic_roots H3 eq_refl Hall).
    by vm_compute.
  - rewrite (Hlag GEP 2 out quadratic_roots H2 eq_refl Hall).
    by vm_compute.
Defined.

End MoreRuns.

(** * The order of the comparison *)

(** ** IEEE formats *)

Section IEEEOrder.
Import IEEE.

Lemma SFcompare_key (x y : spec_float) :
  SFcompare x y
  = match sf_key x, sf_key y with
    | Some a, Some b => Some (key_compare a b)
    | _, _ => None
    end.
Proof.
  destruct x as [sx|sx| |sx mx ex], y as [sy|sy| |sy my ey];
    try destruct sx; try destruct sy; try reflexivity.
  simpl. unfold key_compare. simpl.
  rewrite Z.compare_opp, (Z.compare_antisym ex ey).
  by destruct (ex ?= ey)%Z.
Qed.

Lemma key_compare_lt (a b : Z * Z * Z) :
  key_compare a b = Lt
  <-> (a.1.1 < b.1.1
       \/ (a.1.1 = b.1.1
           /\ (a.1.2 < b.1.2 \/ (a.1.2 = b.1.2 /\ a.2 < b.2))))%Z.
Proof.
  unfold key_compare.
  destruct (Z.compare_spec a.1.1 b.1.1), (Z.compare_spec a.1.2 b.1.2),
    (Z.compare_spec a.2 b.2); split; intros Hlt;
    try discriminate; try lia; try reflexivity.
Qed.

Lemma SFltb_key (x y : spec_float) :
  SFltb x y = true
  <-> exists a b, sf_key x = Some a /\ sf_key y = Some b
                  /\ key_compare a b = Lt.
Proof.
  unfold SFltb. rewrite SFcompare_key.
  destruct (sf_key x) as [a|], (sf_key y) as [b|].
  - split.
    + intros Hlt. exists a, b. split; [done|]. split; [done|].
      by destruct (key_compare a b).
    + intros (a' & b' & Ha & Hb & Hlt).
      injection Ha as <-. injection Hb as <-. by rewrite Hlt.
  - split; [discriminate|]. intros (a' & b' & _ & Hb & _). discriminate.
  - split; [discriminate|]. intros (a' & b' & Ha & _ & _). discriminate.
  - split; [discriminate|]. intros (a' & b' & Ha & _ & _). discriminate.
Qed.

Lemma SFltb_asym (x y : spec_float) :
  SFltb x y = true -> SFltb y x = false.
Proof.
  intros (a & b & Ha & Hb & Hlt)%SFltb_key.
  apply not_true_is_false. intros (b' & a' & Hb' & Ha' & Hgt)%SFltb_key.
  rewrite Ha in Ha'. rewrite Hb in Hb'.
  injection Ha' as <-. injection Hb' as <-.
  apply key_compare_lt in Hlt, Hgt. lia.
Qed.

Lemma SFltb_trans (x y z : spec_float) :
  SFltb x y = true -> SFltb y z = true -> SFltb x z = true.
Proof.
  intros (a & b & Ha & Hb & Hab)%SFltb_key.
  intros (b' & c & Hb' & Hc & Hbc)%SFltb_key.
  rewrite Hb in Hb'. injection Hb' as <-.
  apply SFltb_key. exists a, c. repeat split; [done..|].
  apply key_compare_lt in Hab, Hbc. apply key_compare_lt. lia.
Qed.

#[global] Instance binary32_strict : StrictLt binary32.
Proof.
  split.
  - intros x y. apply SFltb_asym.
  - intros x y z. apply SFltb_trans.
Qed.

#[global] Instance binary64_strict : StrictLt binary64.
Proof.
  split.
  - intros x y. apply SFltb_asym.
  - intros x y z. apply SFltb_trans.
Qed.

#[global] Instance binary80_strict : StrictLt binary80.
Proof.
  split.
  - intros x y. apply SFltb_asym.
  - intros x y z. apply SFltb_trans.
Qed.

End IEEEOrder.

(** ** [std::sort] under a strict order *)

Section SortedFacts.
Context {T : Type} `{StrictLt T}.

Lemma sort_insert_sorted (x : T) (l : list T) :
  StronglySorted num_le l -> StronglySorted num_le (sort_insert x l).
Proof.
  induction 1 as [|y l Hl IH Hy]; simpl.
  { repeat constructor. }
  destruct (num_ltb x y) eqn:Hxy.
  - constructor; [by constructor|]. constructor; [by apply ltb_asym|].
    rewrite Forall_forall in Hy |- *. intros z Hz.
    specialize (Hy z Hz). unfold num_le in *.
    destruct (num_ltb z x) eqn:Hzx; [|done].
    by rewrite (ltb_trans z x y Hzx Hxy) in Hy.
  - constructor; [done|].
    rewrite Forall_forall in Hy |- *. intros z Hz.
    rewrite sort_insert_perm in Hz.
    apply elem_of_cons in Hz as [->|Hz]; [done|by apply Hy].
Qed.

Lemma std_sort_sorted (l : list T) : StronglySorted num_le (std_sort l).
Proof.
  induction l as [|x l IH]; simpl; [constructor|].
  by apply sort_insert_sorted.
Qed.

(** The sorted prefix is non-decreasing: no entry is less than an earlier
    one. *)
Lemma sort_prefix_sorted (n : nat) (v : list T) :
  StronglySorted num_le (take n (sort_prefix n v)).
Proof. rewrite take_sort_prefix. apply std_sort_sorted. Qed.


End SortedFacts.

(** * The call of the eigenvalue solver and the roots returned *)

Lemma fmap_ext_in {A B} (f g : A -> B) (l : list A) :
  (forall x, x ∈ l -> f x = g x) -> f <$> l = g <$> l.
Proof.
  intros Hfg. induction l as [|x l IH]; [done|].
  rewrite !fmap_cons, Hfg by left. f_equal. apply IH.
  intros y Hy. apply Hfg. by right.
Qed.

Lemma length_pair_rows (pairs : list (nat * nat)) :
  length (pair_rows pairs) = 2 * length pairs.
Proof. induction pairs as [|p pairs IH]; simpl; [done|]. lia. Qed.

Section GenericCall.
Context {real double ldouble : Type}.
Context `{Numeric real} `{Numeric ldouble}.
Context `{Cast Z double} `{Cast double real}.
Context `{Cast real ldouble} `{Cast ldouble real}.
Variable GEP : GEPSolver real.

Lemma eigensolveroots_fails (poly : Polynomial real) (out : Roots real) :
  GEP (companion_matrix (ldouble:=ldouble) poly) (msetIdentity (order poly))
    = None ->
  eigensolveroots (ldouble:=ldouble) GEP poly out = (false, out).
Proof. intros Hgep. unfold eigensolveroots. by rewrite Hgep. Qed.

(** C5: the generic solver builds the N x N companion matrix with row 0
    [A(0, i) = -coeff[N-i-1] / coeff[N]] for [i < N], sub-diagonal
    [A(i+1, i) = 1] for [i < N - 1] and every other entry zero, and calls
    the eigenvalue solver on this matrix and the N x N identity: when the
    solver fails on this pencil the call fails and leaves the output as it
    was, when it answers with a table the result is made of the rows of this
    table, and no other answer of the solver has a part in the result. *)
Theorem companion_matrix_spec (poly : Polynomial real) (out : Roots real) :
  let N := order poly in
  let A := companion_matrix (double:=double) (ldouble:=ldouble) poly in
  let I : Spec1DMatrix real := msetIdentity N in
  (mrows A = N /\ mcols A = N)
  /\ (forall i, i < N ->
        mat A 0 i = cast (cast (- coeff poly (N - i - 1))%num
                          / (cast (coeff poly N) : ldouble))%num)
  /\ (forall i, i < N - 1 -> mat A (i + 1) i = cast (cast 1%Z : double))
  /\ (forall r c, ~ (r = 0 /\ c < N) -> ~ (r = c + 1 /\ c < N - 1) ->
        mat A r c = num_zero)
  /\ (mrows I = N /\ mcols I = N
      /\ forall r c, mat I r c = if decide (r = c) then num_one else num_zero)
  /\ (GEP A I = None ->
      eigensolveroots (double:=double) (ldouble:=ldouble) GEP poly out
      = (false, out))
  /\ (forall lambda, GEP A I = Some lambda ->
      let Rs := real_rows lambda (seq 0 N) in
      let Cs := complex_rows lambda (seq 0 N) in
      eigensolveroots (double:=double) (ldouble:=ldouble) GEP poly out
      = (true,
         mkRoots (std_sort (quot_re lambda <$> Rs)
                    ++ reverse (quot_re lambda <$> Cs))
                 (((fun _ => cast (cast 0%Z : double)) <$> Rs)
                    ++ reverse (quot_im lambda <$> Cs))
                 (Z.of_nat (length Rs))))
  /\ eigensolveroots (double:=double) (ldouble:=ldouble) GEP poly out
     = eigensolveroots (double:=double) (ldouble:=ldouble)
         (fun _ _ => GEP A I) poly out.
Proof.
  intros N A I.
  split; [|split; [|split; [|split; [|split; [|split; [|split]]]]]].
  - unfold A, companion_matrix. split.
    + rewrite mrows_foldl; [done|]. intros. apply companion_step_dims.
    + rewrite mcols_foldl; [done|]. intros. apply companion_step_dims.
  - intros i Hi. unfold A, companion_matrix. rewrite companion_prefix.
    fold N. case_decide; [done|lia].
  - intros i Hi. unfold A, companion_matrix. rewrite companion_prefix.
    fold N. repeat case_decide; (done || lia).
  - intros r c Hrow Hsub. unfold A, companion_matrix.
    rewrite companion_prefix. fold N.
    repeat case_decide; try done; destruct_and?; exfalso; auto with lia.
  - done.
  - apply eigensolveroots_fails.
  - intros lambda Hgep. by apply eigensolveroots_closed.
  - done.
Qed.

(** The pairs of values returned are those of the rows. *)
Lemma roots_of_rows (lambda : Spec1DMatrix real) (rows : list nat) :
  let Rs := real_rows lambda rows in
  let Cs := complex_rows lambda rows in
  zip (std_sort (quot_re lambda <$> Rs) ++ reverse (quot_re lambda <$> Cs))
      (((fun _ => cast (cast 0%Z : double)) <$> Rs)
         ++ reverse (quot_im lambda <$> Cs))
  ≡ₚ row_root lambda <$> rows.
Proof.
  intros Rs Cs.
  rewrite zip_with_app.
  2:{ rewrite length_std_sort. by rewrite !length_fmap. }
  rewrite fmap_const_replicate, zip_with_replicate_r_eq.
  2:{ rewrite length_std_sort. by rewrite length_fmap. }
  rewrite std_sort_perm, <-list_fmap_compose.
  rewrite <-!fmap_reverse, zip_with_fmap_l, zip_with_fmap_r, zip_with_diag.
  rewrite reverse_Permutation.
  rewrite (fmap_ext_in _ (row_root lambda) Rs).
  2:{ intros i Hi. apply list_elem_of_filter in Hi as [Hi _].
      unfold row_root. simpl. by rewrite Hi. }
  rewrite (fmap_ext_in _ (row_root lambda) Cs).
  2:{ intros i Hi. apply list_elem_of_filter in Hi as [Hi _].
      unfold row_root. by destruct (is_real_row lambda i). }
  rewrite <-fmap_app. unfold Rs, Cs, real_rows, complex_rows.
  by rewrite filter_app_complement.
Qed.

Lemma conjugate_paired_length (lambda : Spec1DMatrix real) rows npairs :
  conjugate_paired lambda rows npairs ->
  length (complex_rows lambda rows) = 2 * npairs.
Proof.
  intros (pairs & <- & Hperm & _). by rewrite Hperm, length_pair_rows.
Qed.

(** C6: after a successful call the rows classified as real and the rows
    classified as complex are N together and [0 <= nreal <= N]; every one of
    the N positions of the vectors returned is written exactly once: the
    vectors have length N, the pairs [(eig_real[p], eig_imag[p])] are, up to
    their order, the pairs of the N rows, and the indices at which the loop
    writes are a permutation of 0 .. N-1.  When the complex rows are
    [npairs] conjugate pairs, [nreal + 2 * npairs = N]. *)
Theorem eigensolveroots_count (poly : Polynomial real) (out : Roots real)
    (lambda : Spec1DMatrix real) :
  let N := order poly in
  let res := eigensolveroots (ldouble:=ldouble) GEP poly out in
  let Rs := real_rows lambda (seq 0 N) in
  let Cs := complex_rows lambda (seq 0 N) in
  GEP (companion_matrix poly) (msetIdentity N) = Some lambda ->
  res.1 = true
  /\ nreal res.2 = Z.of_nat (length Rs)
  /\ length Rs + length Cs = N
  /\ (0 <= nreal res.2 <= Z.of_nat N)%Z
  /\ (length (eig_real res.2) = N /\ length (eig_imag res.2) = N)
  /\ zip (eig_real res.2) (eig_imag res.2) ≡ₚ row_root lambda <$> seq 0 N
  /\ (classify_trace N lambda (classify_init N out) (seq 0 N) ≡ₚ seq 0 N
      /\ forall st i,
           c_real (classify_row N lambda st i)
             = <[classify_pos N lambda st i := (row_root lambda i).1]>
                 (c_real st)
           /\ c_imag (classify_row N lambda st i)
             = <[classify_pos N lambda st i := (row_root lambda i).2]>
                 (c_imag st))
  /\ (forall npairs, conjugate_paired lambda (seq 0 N) npairs ->
        (nreal res.2 + 2 * Z.of_nat npairs = Z.of_nat N)%Z).
Proof.
  intros N res Rs Cs Hgep. unfold res.
  rewrite (eigensolveroots_closed GEP poly out lambda Hgep). simpl.
  fold N Rs Cs.
  pose proof (rows_split_length lambda (seq 0 N)) as Hsplit.
  rewrite length_seq in Hsplit. fold Rs Cs in Hsplit.
  split; [done|]. split; [done|]. split; [done|]. split; [lia|].
  split; [|split; [|split]].
  - rewrite !length_app, length_std_sort, !length_reverse, !length_fmap.
    done.
  - apply roots_of_rows.
  - split.
    + rewrite classify_trace_perm; rewrite length_seq; [done|]. simpl. lia.
    + intros st i. apply classify_row_writes.
  - intros npairs Hpairs%conjugate_paired_length. fold Cs in Hpairs. lia.
Qed.

End GenericCall.

Section NodeCall.
Context {real double ldouble : Type}.
Context `{Numeric real} `{Numeric double} `{Numeric ldouble}.
Context `{Cast Z double} `{Cast nat double} `{Cast double real}.
Context `{Cast double ldouble} `{Cast ldouble double}.
Variable GEPd : GEPSolver double.
Variable GEPr : GEPSolver real.

(** C9: for every order >= 3 the Lobatto solver builds, with N = order - 1,
    the N x N symmetric tridiagonal matrix with zero diagonal,
    [A(0,1) = A(1,0) = 1/sqrt 5] and, for [1 <= i < N - 1],
    [A(i,i+1) = A(i+1,i)] the recurrence of the specification at
    [i' = i + 1], and calls the eigenvalue solver on this matrix and the
    N x N identity: when the solver fails on this pencil the call fails and
    leaves the output as it was, when it answers with a table the result is
    made of the rows of this table, and no other answer of the solver has a
    part in the result. *)
Theorem lobatto_matrix_spec (order : nat) (out : Nodes real) :
  3 <= order ->
  let N := order - 1 in
  let A : Spec1DMatrix double := lobatto_matrix (ldouble:=ldouble) N in
  let I : Spec1DMatrix double := msetIdentity N in
  (mrows A = N /\ mcols A = N)
  /\ (forall i, mat A i i = num_zero)
  /\ (mat A 0 1 = (cast 1%Z / num_sqrt (cast 5%Z))%num
      /\ mat A 1 0 = (cast 1%Z / num_sqrt (cast 5%Z))%num)
  /\ (forall i, 1 <= i < N - 1 ->
        mat A i (i + 1)
        = cast (lobatto_offdiag_spec (ldouble:=ldouble)
                  (cast ((cast 1%Z : double) + cast i)%num))
        /\ mat A (i + 1) i = mat A i (i + 1))
  /\ (forall r c, ~ (c = r + 1 /\ r < N - 1) -> ~ (r = c + 1 /\ c < N - 1) ->
        mat A r c = num_zero)
  /\ (forall r c, mat A r c = mat A c r)
  /\ (mrows I = N /\ mcols I = N
      /\ forall r c, mat I r c = if decide (r = c) then num_one else num_zero)
  /\ (GEPd A I = None ->
      eigensolveroots_lobatto (real:=real) (ldouble:=ldouble) GEPd order out
      = (false, out))
  /\ (forall lambda, GEPd A I = Some lambda ->
      let rows := kept (lobatto_keep lambda) (seq 0 N) in
      eigensolveroots_lobatto (real:=real) (ldouble:=ldouble) GEPd order out
      = (true,
         mkNodes (sort_prefix (length rows)
                    ((lobatto_quot lambda <$> rows)
                     ++ drop (length rows)
                          (resize N num_zero (node_real out))))
                 (Z.of_nat (length rows))))
  /\ eigensolveroots_lobatto (real:=real) (ldouble:=ldouble) GEPd order out
     = eigensolveroots_lobatto (real:=real) (ldouble:=ldouble)
         (fun _ _ => GEPd A I) order out.
Proof.
  intros Horder N A I.
  assert (forall r c, mat A r c = _) as HA
    by (intros r c; apply (lobatto_prefix N (N - 1) r c)).
  split; [|split; [|split; [|split; [|split; [|split; [|split;
    [|split; [|split]]]]]]]].
  - unfold A, lobatto_matrix. split.
    + rewrite mrows_foldl; [done|]. intros. apply lobatto_step_dims.
    + rewrite mcols_foldl; [done|]. intros. apply lobatto_step_dims.
  - intros i. rewrite HA. repeat case_decide; (done || lia).
  - rewrite !HA. split; repeat case_decide; (done || lia).
  - intros i Hi. rewrite !HA, <-lobatto_recurrence_spec.
    split; repeat case_decide; (done || lia).
  - intros r c Hup Hlow. rewrite HA.
    repeat case_decide; try done; destruct_or?; destruct_and?;
      exfalso; auto with lia.
  - intros r c. rewrite !HA.
    repeat case_decide; try done; destruct_or?; destruct_and?; subst;
      try lia; exfalso; auto with lia.
  - done.
  - by apply lobatto_fails.
  - intros lambda Hgep. by apply lobatto_general.
  - destruct order as [|[|[|n]]]; try lia. done.
Qed.

(** X4: for every order >= 2 the Laguerre solver builds, with N = order, the
    N x N symmetric tridiagonal matrix with diagonal [A(i,i) = 2 (i + 1)]
    and off-diagonal [A(i,i+1) = A(i+1,i) = sqrt((1 + i) (2 + i))] for
    [i < N - 1], every entry computed in [double] and narrowed to the
    caller's type, and every other entry zero, and calls the eigenvalue
    solver on this matrix and the N x N identity: when the solver fails on
    this pencil the call fails and leaves the output as it was, when it
    answers with a table the result is made of the rows of this table, and
    no other answer of the solver has a part in the result. *)
Theorem laguerre_matrix_spec (order : nat) (out : Nodes real) :
  2 <= order ->
  let N := order in
  let A : Spec1DMatrix real := laguerre_matrix (double:=double) N in
  let I : Spec1DMatrix real := msetIdentity N in
  (mrows A = N /\ mcols A = N)
  /\ (forall i, i < N ->
        mat A i i = cast ((cast 2%Z : double) * cast (i + 1)%nat)%num)
  /\ (forall i, i < N - 1 ->
        mat A i (i + 1)
        = cast (num_sqrt (((cast 1%Z : double) + cast i)
                          * ((cast 2%Z : double) + cast i)))%num)
  /\ (forall r c, r < N -> c < N -> r <> c -> r <> c + 1 -> c <> r + 1 ->
        mat A r c = num_zero)
  /\ (forall r c, mat A r c = mat A c r)
  /\ (mrows I = N /\ mcols I = N
      /\ forall r c, mat I r c = if decide (r = c) then num_one else num_zero)
  /\ (GEPr A I = None ->
      eigensolveroots_laguerre (double:=double) GEPr order out = (false, out))
  /\ (forall lambda, GEPr A I = Some lambda ->
      let rows := kept (laguerre_keep (double:=double) lambda) (seq 0 N) in
      eigensolveroots_laguerre (double:=double) GEPr order out
      = (true,
         mkNodes (sort_prefix (length rows)
                    ((laguerre_quot lambda <$> rows)
                     ++ drop (length rows)
                          (resize N num_zero (node_real out))))
                 (Z.of_nat (length rows))))
  /\ eigensolveroots_laguerre (double:=double) GEPr order out
     = eigensolveroots_laguerre (double:=double) (fun _ _ => GEPr A I)
         order out.
Proof.
  intros Horder N A I.
  assert (forall r c, mat A r c = _) as HA
    by (intros r c; apply (laguerre_prefix N N r c)).
  split; [|split; [|split; [|split; [|split; [|split; [|split; [|split]]]]]]].
  - unfold A, laguerre_matrix. split.
    + rewrite mrows_foldl; [done|]. intros. apply laguerre_step_dims.
    + rewrite mcols_foldl; [done|]. intros. apply laguerre_step_dims.
  - intros i Hi. rewrite HA. repeat case_decide; (done || lia).
  - intros i Hi. rewrite HA.
    repeat case_decide; try done; destruct_and?; subst; lia.
  - intros r c Hr Hc Hd Hl Hu. rewrite HA.
    repeat case_decide; try done; destruct_and?; subst; lia.
  - intros r c. rewrite !HA.
    repeat case_decide; try done; destruct_and?; subst;
      try reflexivity; try lia; exfalso; auto with lia.
  - done.
  - by apply laguerre_fails.
  - intros lambda Hgep. by apply laguerre_general.
  - destruct order as [|[|n]]; try lia. done.
Qed.

(** C7: called on an [eig_real] that is empty, as a vector allocated for the
    call is, the Lobatto solver returns success with [eig_real] exactly
    {0.0} and [nreal = 1] for order 0, exactly {-1.0, 1.0} and [nreal = 2]
    for order 1, exactly {-1.0, 0.0, 1.0} and [nreal = 3] for order 2,
    whatever the eigenvalue solver and whatever [nreal] held. *)
Theorem lobatto_shortcuts (out : Nodes real) :
  node_real out = [] ->
  let zero : real := cast (cast 0%Z : double) in
  let one : real := cast (cast 1%Z : double) in
  let mone : real := cast (- (cast 1%Z : double))%num in
  eigensolveroots_lobatto (ldouble:=ldouble) GEPd 0 out
    = (true, mkNodes [zero] 1)
  /\ eigensolveroots_lobatto (ldouble:=ldouble) GEPd 1 out
    = (true, mkNodes [mone; one] 2)
  /\ eigensolveroots_lobatto (ldouble:=ldouble) GEPd 2 out
    = (true, mkNodes [mone; zero; one] 3).
Proof. intros Hout zero one mone. simpl. by rewrite Hout. Qed.

(** C8: called on an [eig_real] that is empty, as a vector allocated for the
    call is, the Laguerre solver returns success with [eig_real] the empty
    sequence and [nreal = 0] for order 0, and with [eig_real] exactly {2.0}
    and [nreal = 1] for order 1, whatever the eigenvalue solver and whatever
    [nreal] held. *)
Theorem laguerre_shortcuts (out : Nodes real) :
  node_real out = [] ->
  eigensolveroots_laguerre (double:=double) GEPr 0 out
    = (true, mkNodes [] 0)
  /\ eigensolveroots_laguerre (double:=double) GEPr 1 out
    = (true, mkNodes [cast (cast 2%Z : double)] 1).
Proof. intros Hout. simpl. by rewrite Hout. Qed.

End NodeCall.

(** * Sortedness *)

Section Sortedness.
Context {real double ldouble : Type}.
Context `{Numeric real} `{Numeric double} `{Numeric ldouble}.
Context `{!StrictLt real}.
Context `{Cast Z double} `{Cast nat double} `{Cast double real}.
Context `{Cast double ldouble} `{Cast ldouble double}.
Context `{Cast real ldouble} `{Cast ldouble real}.




End Sortedness.

Section SolversSorted.
Import IEEE.
Context {real double ldouble : Type}.
Context `{Numeric real} `{Numeric double} `{Numeric ldouble}.
Context `{!StrictLt real}.
Context `{Cast Z double} `{Cast nat double} `{Cast double real}.
Context `{Cast double ldouble} `{Cast ldouble double}.
Context `{Cast real ldouble} `{Cast ldouble real}.



End SolversSorted.

(** * The theorems at concrete inputs *)

Section CallRuns.
Import IEEE Examples.

(** x^2 - 1 with a solver that answers on the companion pencil of x^2 - 1
    only, and with a solver that fails. *)
Lemma companion_matrix_spec_witness :
  let GEP :=
    GEP_expects (pencil_is 2 [[d 0; d 1]; [d 1; d 0]]) quadratic_roots in
  eigensolveroots (double:=binary64) (ldouble:=binary80)
    GEP quadratic no_roots
  = (true, mkRoots [d (-1); d 1] [d 0; d 0] 2)
  /\ eigensolveroots (double:=binary64) (ldouble:=binary80)
       GEP_fails quadratic no_roots
     = (false, no_roots).
Proof.
  intros GEP.
  destruct (companion_matrix_spec (double:=binary64) (ldouble:=binary80)
              GEP quadratic no_roots) as (_ & _ & _ & _ & _ & _ & Hsome & _).
  destruct (companion_matrix_spec (double:=binary64) (ldouble:=binary80)
              GEP_fails quadratic no_roots)
    as (_ & _ & _ & _ & _ & Hnone & _).
  split.
  - rewrite (Hsome quadratic_roots); [by vm_compute|by vm_compute].
  - exact (Hnone eq_refl).
Defined.

(** x^3 - 1: one real root and one conjugate pair, rows 0 and 2 of the
    table. *)
Lemma eigensolveroots_count_witness :
  let GEP :=
    GEP_expects (pencil_is 3 [[d 0; d 0; d 1]; [d 1; d 0; d 0];
                              [d 0; d 1; d 0]]) cubic_roots in
  let res := eigensolveroots (double:=binary64) (ldouble:=binary80)
               GEP cubic no_roots in
  conjugate_paired (double:=binary64) cubic_roots (seq 0 3) 1
  /\ res.1 = true
  /\ nreal res.2 = 1%Z
  /\ (nreal res.2 + 2 * 1 = 3)%Z
  /\ zip (eig_real res.2) (eig_imag res.2)
     ≡ₚ row_root (double:=binary64) cubic_roots
          <$> [0; 1; 2].
Proof.
  intros GEP res.
  assert (conjugate_paired (double:=binary64) cubic_roots (seq 0 3) 1)
    as Hpairs.
  { exists [(0, 2)]. split; [done|]. split; [by vm_compute|].
    constructor; [|constructor]. split; by vm_compute. }
  assert (GEP (companion_matrix (ldouble:=binary80) cubic)
              (msetIdentity (order cubic)) = Some cubic_roots) as Hgep
    by (by vm_compute).
  destruct (eigensolveroots_count (double:=binary64) (ldouble:=binary80)
              GEP cubic no_roots cubic_roots Hgep)
    as (Hok & Hn & _ & _ & _ & Hzip & _ & Hcount).
  split; [exact Hpairs|]. split; [exact Hok|]. split; [exact Hn|].
  split; [exact (Hcount 1 Hpairs)|exact Hzip].
Defined.

(** Lobatto order 4 with a solver that answers only on the 3 x 3 pencil of
    the specification, on a table whose last row is complex, and with a
    solver that fails. *)
Lemma lobatto_matrix_spec_witness :
  let a : binary64 := (cast 1%Z / num_sqrt (cast 5%Z))%num in
  let b : binary64 :=
    cast (lobatto_offdiag_spec (double:=binary64) (ldouble:=binary80)
            (cast (d 2))) in
  let GEP :=
    GEP_expects (pencil_is 3 [[d 0; a; d 0]; [a; d 0; b]; [d 0; b; d 0]])
      mixed_rows in
  3 <= 4
  /\ eigensolveroots_lobatto (double:=binary64) (ldouble:=binary80)
       GEP 4 no_nodes
     = (true, mkNodes [(d (-3) / d 4)%num; (d 3 / d 4)%num; d 0] 2)
  /\ eigensolveroots_lobatto (double:=binary64) (ldouble:=binary80)
       GEP_fails 4 no_nodes
     = (false, no_nodes).
Proof.
  intros a b GEP. assert (3 <= 4) as H4 by lia. split; [exact H4|].
  destruct (lobatto_matrix_spec (double:=binary64) (ldouble:=binary80)
              GEP 4 no_nodes H4)
    as (_ & _ & _ & _ & _ & _ & _ & _ & Hsome & _).
  destruct (lobatto_matrix_spec (double:=binary64) (ldouble:=binary80)
              GEP_fails 4 no_nodes H4)
    as (_ & _ & _ & _ & _ & _ & _ & Hnone & _).
  split.
  - rewrite (Hsome mixed_rows); [by vm_compute|by vm_compute].
  - exact (Hnone eq_refl).
Defined.

(** Laguerre order 3 with a solver that answers only on the 3 x 3 pencil
    with the diagonal 2, 4, 6 and the off-diagonal sqrt 2, sqrt 6, and with
    a solver that fails. *)
Lemma laguerre_matrix_spec_witness :
  let s2 : binary64 := num_sqrt (d 2) in
  let s6 : binary64 := num_sqrt (d 6) in
  let GEP :=
    GEP_expects (pencil_is 3 [[d 2; s2; d 0]; [s2; d 4; s6]; [d 0; s6; d 6]])
      mixed_rows in
  2 <= 3
  /\ eigensolveroots_laguerre (double:=binary64) GEP 3 no_nodes
     = (true, mkNodes [(d (-3) / d 4)%num; (d 3 / d 4)%num; d 0] 2)
  /\ eigensolveroots_laguerre (double:=binary64) GEP_fails 3 no_nodes
     = (false, no_nodes).
Proof.
  intros s2 s6 GEP. assert (2 <= 3) as H3 by lia. split; [exact H3|].
  destruct (laguerre_matrix_spec (double:=binary64) GEP 3 no_nodes H3)
    as (_ & _ & _ & _ & _ & _ & _ & Hsome & _).
  destruct (laguerre_matrix_spec (double:=binary64) GEP_fails 3 no_nodes H3)
    as (_ & _ & _ & _ & _ & _ & Hnone & _).
  split.
  - rewrite (Hsome mixed_rows); [by vm_compute|by vm_compute].
  - exact (Hnone eq_refl).
Defined.

(** The three shortcut cases of the Lobatto solver on an empty vector. *)
Lemma lobatto_shortcuts_witness :
  node_real no_nodes = []
  /\ eigensolveroots_lobatto (double:=binary64) (ldouble:=binary80)
       GEP_fails 0 no_nodes = (true, mkNodes [d 0] 1)
  /\ eigensolveroots_lobatto (double:=binary64) (ldouble:=binary80)
       GEP_fails 1 no_nodes = (true, mkNodes [d (-1); d 1] 2)
  /\ eigensolveroots_lobatto (double:=binary64) (ldouble:=binary80)
       GEP_fails 2 no_nodes = (true, mkNodes [d (-1); d 0; d 1] 3).
Proof.
  split; [reflexivity|].
  exact (lobatto_shortcuts (real:=binary64) (double:=binary64)
           (ldouble:=binary80) GEP_fails no_nodes eq_refl).
Defined.

(** The two shortcut cases of the Laguerre solver on an empty vector. *)
Lemma laguerre_shortcuts_witness :
  node_real no_nodes = []
  /\ eigensolveroots_laguerre (double:=binary64) GEP_fails 0 no_nodes
     = (true, mkNodes [] 0)
  /\ eigensolveroots_laguerre (double:=binary64) GEP_fails 1 no_nodes
     = (true, mkNodes [d 2] 1).
Proof.
  split; [reflexivity|].
  exact (laguerre_shortcuts (real:=binary64) (double:=binary64)
           GEP_fails no_nodes eq_refl).
Defined.


End CallRuns.
